(** * GATS TestApp: a shallow embedding of [gats/TestApp.hpp]

    The header declares the unit-test harness used by the expression
    evaluator: the [TestApp::TestCase] base class with its two counters,
    the template checks [check_equal] and [check_close_within], and the
    [GATS_*] macros through which a test body reaches the case that is
    currently executing.

    Conventions of the embedding.
    - [std::uintmax_t] counters are integers in [0, 2^64) and [++] wraps.
    - [std::string] is [string]; its comparison is lexicographic on the
      character codes.
    - [int] is a 32-bit two's-complement integer; arithmetic on it wraps.
    - [double] operands of the tolerance check are binary64 numbers, the
      kernel's primitive floats. The weights, which only the Driver's
      score (defined outside the header) reads, are exact rationals.
    - The display stream [std::cout] is the text written so far.
    - Template parameters are type classes: [Show] for [operator<<],
      [EqOp] for [operator==], [Arith] for [-], [abs] and [<=]. *)

From Stdlib Require Import ZArith List String Ascii Bool Lia.
From Stdlib Require Import QArith Qabs DecimalString Floats.
From Stdlib Require Import Sorted Permutation.
Import ListNotations.

Local Open Scope string_scope.
Local Open Scope Z_scope.

(** ** Characters that the source writes with escapes *)

Definition dquote : string := String "034"%char EmptyString.
Definition newline : string := String "010"%char EmptyString.
Definition tab : string := String "009"%char EmptyString.

(** ** Machine integers: [std::uintmax_t] *)

Module UIntMax.
Definition modulus : Z := 2 ^ 64.
Definition max : Z := modulus - 1.
Definition in_range (n : Z) : Prop := 0 <= n < modulus.
(** [++n] on an unsigned 64-bit integer. *)
Definition incr (n : Z) : Z := (n + 1) mod modulus.
End UIntMax.

(** ** Template interfaces *)

(** [os << x]: the textual rendering of a value. *)
Class Show (T : Type) := show : T -> string.

(** [lhs == rhs] between two, possibly different, operand types. *)
Class EqOp (L R : Type) := eq_op : L -> R -> bool.

(** The arithmetic [check_close_within] asks of its operands, taken at
    their common type: [lhs - rhs], [abs] and [<=]. *)
Class Arith (T : Type) := {
  sub : T -> T -> T;
  abs : T -> T;
  leq : T -> T -> bool
}.

(** [int] rendered in decimal, with a leading minus sign when negative. *)
Definition show_Z (z : Z) : string := NilZero.string_of_int (Z.to_int z).

#[export] Instance Show_Z : Show Z := show_Z.
#[export] Instance Show_string : Show string := fun s => s.
#[export] Instance EqOp_Z : EqOp Z Z := Z.eqb.
#[export] Instance EqOp_string : EqOp string string := String.eqb.

(** ** Machine integers: [int] *)

Module Int.
Definition min : Z := - 2 ^ 31.
Definition max : Z := 2 ^ 31 - 1.
Definition in_range (n : Z) : Prop := min <= n <= max.
(** The 32-bit two's-complement value an arithmetic result is kept as. *)
Definition wrap (n : Z) : Z := (n + 2 ^ 31) mod 2 ^ 32 - 2 ^ 31.
End Int.

(** [int] operands: [lhs - rhs] and [abs(int)] computed in 32 bits. Signed
    overflow is undefined in the language; the result is modelled as it
    wraps on two's-complement hardware, and the properties stated for
    [int] operands assume operands and results in range. *)
#[export] Instance Arith_int : Arith Z :=
  {| sub := fun a b => Int.wrap (a - b);
     abs := fun a => Int.wrap (Z.abs a);
     leq := Z.leb |}.

(** [double] operands: binary64 subtraction and comparison, and [abs] at
    its floating-point overload, which is what the unqualified call
    resolves to where the standard headers declare the [double] overloads
    of [abs] in the global namespace. *)
#[export] Instance Arith_double : Arith float :=
  {| sub := PrimFloat.sub; abs := PrimFloat.abs; leq := PrimFloat.leb |}.

(** ** [TestApp::TestCase] *)

Record TestCase : Type := mkTestCase {
  name_m : string;
  nChecked_m : Z;
  nPassed_m : Z;
  weight_m : Q
}.

(** Modelled from the spec: the constructor [TestCase(name, weight)] is
    declared in the header and defined elsewhere; it keeps the name and the
    weight and registers the object (see [Registered]). The counters take
    the default member initialisers of the class declaration. *)
Definition new_TestCase (name : string) (weight : Q) : TestCase :=
  {| name_m := name; nChecked_m := 0; nPassed_m := 0; weight_m := weight |}.

(** [TestCase(name) : TestCase(name, 1)]. *)
Definition new_TestCase_default (name : string) : TestCase :=
  new_TestCase name 1%Q.

(** [void add_check() { ++nChecked_m; }] *)
Definition add_check (this : TestCase) : TestCase :=
  {| name_m := name_m this;
     nChecked_m := UIntMax.incr (nChecked_m this);
     nPassed_m := nPassed_m this;
     weight_m := weight_m this |}.

(** [void add_passed() { ++nPassed_m; }] *)
Definition add_passed (this : TestCase) : TestCase :=
  {| name_m := name_m this;
     nChecked_m := nChecked_m this;
     nPassed_m := UIntMax.incr (nPassed_m this);
     weight_m := weight_m this |}.

(** [operator <=>]: [name_m <=> rhs.name_m]. *)
Definition spaceship (a b : TestCase) : comparison :=
  String.compare (name_m a) (name_m b).

(** [operator ==]: [name_m == rhs.name_m]. *)
Definition op_eq (a b : TestCase) : bool :=
  String.eqb (name_m a) (name_m b).

(** The relational operators the language derives from [<=>]. *)
Definition op_lt (a b : TestCase) : bool :=
  match spaceship a b with Lt => true | _ => false end.

Definition op_gt (a b : TestCase) : bool :=
  match spaceship a b with Gt => true | _ => false end.

Definition op_le (a b : TestCase) : bool :=
  match spaceship a b with Gt => false | _ => true end.

(** ** The state a test body runs in

    While the Driver executes a case, [TestApp::current_case] designates
    that case and [display()] is [std::cout]; a body therefore transforms
    the pair of the current case and the text displayed so far. *)

Record State : Type := mkState {
  current_case : TestCase;
  display : string
}.

(** Modelled from the spec: [output_check_location] is declared in the
    header and defined elsewhere; the spec gives the tag it writes,
    [<fileName>(<lineNumber>): ]. *)
Definition output_check_location (os : string) (file : string) (line : Z)
  : string :=
  os ++ file ++ "(" ++ show line ++ "): ".

(** Modelled from the spec: [check] is declared in the header and defined
    elsewhere. It increments checked; when the condition is false it emits
    the location tag and the quoted expression text followed by [failed],
    otherwise it increments passed. *)
Definition check (condition : bool) (condStr : string)
    (file : string) (line : Z) (s : State) : State :=
  let this := add_check (current_case s) in
  if negb condition then
    let oss := output_check_location EmptyString file line in
    let oss := oss ++ dquote ++ condStr ++ dquote ++ " failed" ++ newline in
    {| current_case := this; display := display s ++ oss |}
  else
    {| current_case := add_passed this; display := display s |}.

(** Modelled from the spec: [check_message] is declared in the header and
    defined elsewhere. It behaves as [check] but emits the caller's message
    in place of the expression text. *)
Definition check_message (condition : bool) (message : string)
    (file : string) (line : Z) (s : State) : State :=
  let this := add_check (current_case s) in
  if negb condition then
    let oss := output_check_location EmptyString file line in
    let oss := oss ++ message ++ newline in
    {| current_case := this; display := display s ++ oss |}
  else
    {| current_case := add_passed this; display := display s |}.

(** The text [check_equal] streams after the location tag. *)
Definition equal_report {L R : Type} `{Show L} `{Show R}
    (lhs : L) (rhs : R) (lhsStr rhsStr : string) : string :=
  dquote ++ lhsStr ++ dquote ++ " [" ++ show lhs ++ "] != "
    ++ dquote ++ rhsStr ++ dquote ++ " [" ++ show rhs ++ "]" ++ newline.

(** [TestApp::TestCase::check_equal]. *)
Definition check_equal {L R : Type} `{EqOp L R} `{Show L} `{Show R}
    (lhs : L) (rhs : R) (lhsStr rhsStr : string)
    (file : string) (line : Z) (s : State) : State :=
  let condition := eq_op lhs rhs in
  let this :=
    {| name_m := name_m (current_case s);
       nChecked_m := UIntMax.incr (nChecked_m (current_case s));
       nPassed_m := nPassed_m (current_case s);
       weight_m := weight_m (current_case s) |} in
  if Bool.eqb condition false then
    let oss := output_check_location EmptyString file line in
    let oss := oss ++ equal_report lhs rhs lhsStr rhsStr in
    {| current_case := this; display := display s ++ oss |}
  else
    {| current_case :=
         {| name_m := name_m this;
            nChecked_m := nChecked_m this;
            nPassed_m := UIntMax.incr (nPassed_m this);
            weight_m := weight_m this |};
       display := display s |}.

(** The text [check_close_within] streams after the location tag. *)
Definition within_report {T : Type} `{Arith T} `{Show T}
    (lhs rhs minimum : T) (lhsStr rhsStr minimumStr : string) : string :=
  "difference(" ++ lhsStr ++ ", " ++ rhsStr ++ ") > " ++ minimumStr
    ++ " ==> " ++ tab ++ "|" ++ show lhs ++ " - " ++ show rhs ++ "| > "
    ++ show (abs minimum) ++ newline.

(** [TestApp::TestCase::check_close_within]. *)
Definition check_close_within {T : Type} `{Arith T} `{Show T}
    (lhs rhs minimum : T) (lhsStr rhsStr minimumStr : string)
    (file : string) (line : Z) (s : State) : State :=
  let condition := leq (abs (sub lhs rhs)) (abs minimum) in
  let this := add_check (current_case s) in
  if Bool.eqb condition false then
    let oss := output_check_location EmptyString file line in
    let oss := oss ++ within_report lhs rhs minimum lhsStr rhsStr minimumStr in
    {| current_case := this; display := display s ++ oss |}
  else
    {| current_case := add_passed this; display := display s |}.

(** ** The check macros

    Each macro reaches the executing case through [current_case] and calls
    one of its services; the stringised arguments ([#condition],
    [#testValue], ...) and [__FILE__], [__LINE__] are explicit arguments
    here. *)

(** [GATS_CHECK(condition)] *)
Definition GATS_CHECK (condition : bool) (condStr : string)
    (file : string) (line : Z) (s : State) : State :=
  check condition condStr file line s.

(** [GATS_CHECK_MESSAGE(condition, message)]: the message is streamed only
    when the condition is false. *)
Definition GATS_CHECK_MESSAGE (condition : bool) (message : string)
    (file : string) (line : Z) (s : State) : State :=
  let cond := condition in
  let strMessage := if Bool.eqb cond false then message else EmptyString in
  check_message cond strMessage file line s.

(** [GATS_CHECK_EQUAL(testValue, expectedValue)] *)
Definition GATS_CHECK_EQUAL {L R : Type} `{EqOp L R} `{Show L} `{Show R}
    (testValue : L) (expectedValue : R) (testStr expectedStr : string)
    (file : string) (line : Z) (s : State) : State :=
  check_equal testValue expectedValue testStr expectedStr file line s.

(** [GATS_CHECK_WITHIN(testValue, expectedValue, minimum)] *)
Definition GATS_CHECK_WITHIN {T : Type} `{Arith T} `{Show T}
    (testValue expectedValue minimum : T)
    (testStr expectedStr minimumStr : string)
    (file : string) (line : Z) (s : State) : State :=
  check_close_within testValue expectedValue minimum
    testStr expectedStr minimumStr file line s.

(** The two diagnostics of [GATS_CHECK_THROW]. *)
Definition unknown_exception_report (expectedStr : string) : string :=
  "unknown exception " ++ dquote ++ expectedStr ++ dquote
    ++ " not thrown" ++ newline.

Definition no_exception_report (expectedStr : string) : string :=
  "no exception thrown, expecting " ++ dquote ++ expectedStr ++ dquote
    ++ newline.

(** [GATS_CHECK_THROW(operation, expectedException)].

    The operation is the test author's code; the macro observes only how
    it ends: [None] when it completes, [Some e] when it throws [e]. The
    handler [catch(expectedException)] is the predicate telling which
    thrown objects it matches; [catch(...)] takes the rest. *)
Definition GATS_CHECK_THROW {E : Type}
    (operation : option E) (expectedException : E -> bool)
    (expectedStr : string) (file : string) (line : Z) (s : State) : State :=
  let s := {| current_case := add_check (current_case s);
              display := display s |} in
  let isGood := false in
  let '(isGood, s) :=
    match operation with
    | None => (isGood, s)
    | Some e =>
        if expectedException e then
          (true, {| current_case := add_passed (current_case s);
                    display := display s |})
        else
          let oss := output_check_location EmptyString file line in
          let oss := oss ++ unknown_exception_report expectedStr in
          (true, {| current_case := current_case s;
                    display := display s ++ oss |})
    end in
  if negb isGood then
    let oss := output_check_location EmptyString file line in
    let oss := oss ++ no_exception_report expectedStr in
    {| current_case := current_case s; display := display s ++ oss |}
  else s.

(** [GATS_FAIL(msg)] up to its [return]: the state it leaves behind. *)
Definition GATS_FAIL (msg : string) (file : string) (line : Z) (s : State)
  : State :=
  let this := add_check (current_case s) in
  let oss := output_check_location EmptyString file line in
  let oss := oss ++ msg ++ newline in
  {| current_case := this; display := display s ++ oss |}.

(** ** Test bodies

    A body is the sequence of macro invocations its [execute()] performs,
    in program order. [GATS_FAIL] ends with [return], which leaves
    [execute()]; every other macro falls through to the next statement. *)

Inductive stmt : Type :=
| SCheck (condition : bool) (condStr file : string) (line : Z)
| SCheckMessage (condition : bool) (message file : string) (line : Z)
| SCheckEqual {L R : Type} `{EqOp L R} `{Show L} `{Show R}
    (testValue : L) (expectedValue : R) (testStr expectedStr file : string)
    (line : Z)
| SCheckWithin {T : Type} `{Arith T} `{Show T}
    (testValue expectedValue minimum : T)
    (testStr expectedStr minimumStr file : string) (line : Z)
| SCheckThrow {E : Type} (operation : option E)
    (expectedException : E -> bool) (expectedStr file : string) (line : Z)
| SFail (msg file : string) (line : Z).

Inductive flow : Type := Next | Returned.

Definition exec (st : stmt) (s : State) : flow * State :=
  match st with
  | SCheck c t f l => (Next, GATS_CHECK c t f l s)
  | SCheckMessage c m f l => (Next, GATS_CHECK_MESSAGE c m f l s)
  | SCheckEqual a b ta tb f l => (Next, GATS_CHECK_EQUAL a b ta tb f l s)
  | SCheckWithin a b m ta tb tm f l =>
      (Next, GATS_CHECK_WITHIN a b m ta tb tm f l s)
  | SCheckThrow op ex t f l => (Next, GATS_CHECK_THROW op ex t f l s)
  | SFail m f l => (Returned, GATS_FAIL m f l s)
  end.

Fixpoint run_body (body : list stmt) (s : State) : State :=
  match body with
  | [] => s
  | st :: rest =>
      match exec st s with
      | (Next, s') => run_body rest s'
      | (Returned, s') => s'
      end
  end.

Definition is_fail (st : stmt) : bool :=
  match st with SFail _ _ _ => true | _ => false end.

(** ** Registry and Driver *)

(** A declared test: the [TestCase] sub-object and the body of its
    [execute()] override. *)
Record Registered : Type := mkRegistered {
  case : TestCase;
  body : list stmt
}.

Definition reg_lt (a b : Registered) : bool := op_lt (case a) (case b).

(** Modelled from the spec: [TestApp::execute] is declared in the header
    and defined elsewhere. The spec has it sort the registry by name,
    ascending; this is the sort, by insertion with [operator <]. *)
Fixpoint insert_case (x : Registered) (cs : list Registered)
  : list Registered :=
  match cs with
  | [] => [x]
  | y :: rest => if reg_lt x y then x :: y :: rest else y :: insert_case x rest
  end.

(** Modelled from the spec: the registry sorted by name, ascending. *)
Fixpoint sort_cases (cs : list Registered) : list Registered :=
  match cs with
  | [] => []
  | x :: rest => insert_case x (sort_cases rest)
  end.

(** Modelled from the spec: the Driver's loop. For each case of the given
    sequence it marks the case current, invokes its body and moves on;
    the result lists the finished cases in the order they were run. *)
Fixpoint run_cases (cs : list Registered) (cout : string)
  : list TestCase * string :=
  match cs with
  | [] => ([], cout)
  | c :: rest =>
      let s := run_body (body c)
                 {| current_case := case c; display := cout |} in
      let '(finished, cout') := run_cases rest (display s) in
      (current_case s :: finished, cout')
  end.

(** Modelled from the spec: [TestApp::execute] up to its summary: sort the
    registry by name, then run the cases in that order. *)
Definition execute_cases (registry : list Registered) (cout : string)
  : list TestCase * string :=
  run_cases (sort_cases registry) cout.

(** The names of the cases in the order the Driver runs them. *)
Definition execution_order (registry : list Registered) : list string :=
  map name_m (fst (execute_cases registry EmptyString)).

Local Open Scope Q_scope.

(** Modelled from the spec: the aggregate weighted score that
    [TestApp::execute] (defined elsewhere) computes after the loop. A case
    with checks adds [weight * passed / checked] to the numerator and
    [weight] to the denominator; a case without checks adds nothing. *)
Fixpoint score_sums (finished : list TestCase) (num den : Q) : Q * Q :=
  match finished with
  | [] => (num, den)
  | c :: rest =>
      if (0 <? nChecked_m c)%Z then
        score_sums rest
          (num + weight_m c
                 * (inject_Z (nPassed_m c) / inject_Z (nChecked_m c)))
          (den + weight_m c)
      else score_sums rest num den
  end.

(** Modelled from the spec: the score is the first sum divided by the
    second. *)
Definition weighted_score (finished : list TestCase) : Q :=
  let '(num, den) := score_sums finished 0 0 in num / den.

Local Close Scope Q_scope.

(** Modelled from the spec: the exit status of [TestApp::execute] (defined
    elsewhere) is zero exactly when every case has as many passed as
    checked assertions. *)
Definition all_passed (finished : list TestCase) : bool :=
  forallb (fun c => nPassed_m c =? nChecked_m c) finished.

(** Modelled from the spec: zero when all passed, non-zero otherwise. *)
Definition exit_status (finished : list TestCase) : Z :=
  if all_passed finished then 0 else 1.

(** ** Auxiliary notions used to state the properties *)

(** The effect of a sequence of macro invocations on the executing case,
    wherever they are coded: every invocation is applied, in order. *)
Definition invoke_all (ops : list stmt) (s : State) : State :=
  fold_left (fun s st => snd (exec st s)) ops s.

(** [is_infix needle hay]: the text [needle] occurs in [hay]. *)
Fixpoint is_infix (needle hay : string) : bool :=
  if String.prefix needle hay then true
  else
    match hay with
    | EmptyString => false
    | String _ rest => is_infix needle rest
    end.

(** The name a registered test runs under. *)
Definition reg_name (r : Registered) : string := name_m (case r).

(** ** The order of names, stated independently of [String.compare] *)

(** Lexicographic order as it is usually stated: a proper prefix comes
    first; otherwise the first differing character decides. *)
Inductive lex_lt : string -> string -> Prop :=
| lex_prefix (c : ascii) (s : string) : lex_lt EmptyString (String c s)
| lex_head (c1 c2 : ascii) (s1 s2 : string) :
    (N_of_ascii c1 < N_of_ascii c2)%N -> lex_lt (String c1 s1) (String c2 s2)
| lex_tail (c : ascii) (s1 s2 : string) :
    lex_lt s1 s2 -> lex_lt (String c s1) (String c s2).

(** [<=] on names, as the Driver's sort leaves neighbours. *)
Definition name_le (s1 s2 : string) : Prop := String.compare s1 s2 <> Gt.

(** [<=] on the names of registered tests. *)
Definition reg_le (a b : Registered) : Prop :=
  name_le (reg_name a) (reg_name b).

(** A freshly constructed case about to run, nothing displayed yet. *)
Definition fresh (name : string) : State :=
  {| current_case := new_TestCase_default name; display := EmptyString |}.

(** As many invocations as the largest [std::uintmax_t]: [2^64 - 1]. *)
Definition many : nat := Z.to_nat UIntMax.max.

(** An invocation that leaves the passed counter as it found it. *)
Definition keeps_passed (st : stmt) : Prop :=
  forall s,
    nPassed_m (current_case (snd (exec st s))) = nPassed_m (current_case s).

(** Sample invocations: an equality check that passes, one that fails. *)
Definition passing_check : stmt := SCheckEqual 5 5 "x" "5" "t.cpp" 10.
Definition failing_check : stmt := SCheckEqual 5 6 "x" "6" "t.cpp" 11.

(** A body that passes one check and then fails [2^64 - 1] checks. *)
Definition overflowing_body : list stmt :=
  passing_check :: repeat failing_check many.

(** A body that fails [2^64 - 1] checks and then gives up. *)
Definition overflowing_abort : list stmt :=
  (repeat failing_check many ++ [SFail "giving up" "t.cpp" 12])%list.

Local Open Scope Q_scope.

(** The aggregate score as the spec words it: sums over the cases that
    made at least one check. *)
Definition has_checks (c : TestCase) : bool := (0 <? nChecked_m c)%Z.

Definition pass_ratio (c : TestCase) : Q :=
  inject_Z (nPassed_m c) / inject_Z (nChecked_m c).

Definition Qsum (l : list Q) : Q := fold_right Qplus 0 l.

Definition weighted_part (finished : list TestCase) : Q :=
  Qsum (map (fun c => weight_m c * pass_ratio c) (filter has_checks finished)).

Definition weight_total (finished : list TestCase) : Q :=
  Qsum (map weight_m (filter has_checks finished)).

Local Close Scope Q_scope.

(** Two finished cases: A, weight 2, passed 3 of 4; B, weight 1, passed 2
    of 2; and a case C that made no check. *)
Definition case_A : TestCase := mkTestCase "A" 4 3 2.
Definition case_B : TestCase := mkTestCase "B" 2 2 1.
Definition case_C : TestCase := mkTestCase "C" 0 0 7.

(** The same outcome produced by running bodies: A is declared after B. *)
Definition sample_registry : list Registered :=
  [ mkRegistered (new_TestCase "B" 1) [passing_check; passing_check];
    mkRegistered (new_TestCase "C" 7) [];
    mkRegistered (new_TestCase "A" 2)
      [passing_check; passing_check; failing_check; passing_check] ].

(** ** Notions for the properties of the header's macros as a whole *)

(** The macros whose whole expansion is in the header: the two template
    checks, [GATS_CHECK_THROW] and [GATS_FAIL]. *)
Definition from_header (st : stmt) : bool :=
  match st with
  | SCheck _ _ _ _ | SCheckMessage _ _ _ _ => false
  | _ => true
  end.

(** The condition under which an invocation calls [add_passed]. *)
Definition passes (st : stmt) : bool :=
  match st with
  | SCheck c _ _ _ => c
  | SCheckMessage c _ _ _ => c
  | SCheckEqual a b _ _ _ _ => eq_op a b
  | SCheckWithin a b m _ _ _ _ _ => leq (abs (sub a b)) (abs m)
  | SCheckThrow (Some e) ex _ _ _ => ex e
  | SCheckThrow None _ _ _ _ => false
  | SFail _ _ _ => false
  end.

(** How many invocations of a sequence pass. *)
Definition passing_count (ops : list stmt) : Z :=
  Z.of_nat (List.length (filter passes ops)).

(** [__FILE__] and [__LINE__] of an invocation. *)
Definition stmt_file (st : stmt) : string :=
  match st with
  | SCheck _ _ f _ | SCheckMessage _ _ f _ | SCheckEqual _ _ _ _ f _
  | SCheckWithin _ _ _ _ _ _ f _ | SCheckThrow _ _ _ f _ | SFail _ f _ => f
  end.

Definition stmt_line (st : stmt) : Z :=
  match st with
  | SCheck _ _ _ l | SCheckMessage _ _ _ l | SCheckEqual _ _ _ _ _ l
  | SCheckWithin _ _ _ _ _ _ _ l | SCheckThrow _ _ _ _ l | SFail _ _ l => l
  end.

(** The rational a finite binary64 number denotes, in lowest terms; none
    for infinities and NaN. *)
Definition float_value (x : float) : option Q :=
  match Prim2SF x with
  | S754_zero _ => Some 0%Q
  | S754_finite sign m e =>
      let magnitude := (inject_Z (Zpos m) * Qpower 2 e)%Q in
      Some (Qred (if sign then - magnitude else magnitude)%Q)
  | S754_infinity _ | S754_nan => None
  end.

(** An exact rendering of a binary64 number, mantissa and binary exponent.
    The stream's own formatting of a [double] is the standard library's
    and is not modelled; what is proved about texts holds for every
    rendering. *)
Definition show_double : Show float :=
  fun x =>
    match Prim2SF x with
    | S754_zero sign => if sign then "-0" else "0"
    | S754_finite sign m e =>
        (if sign then "-" else EmptyString)
          ++ show_Z (Zpos m) ++ "*2^" ++ show_Z e
    | S754_infinity sign => if sign then "-inf" else "inf"
    | S754_nan => "nan"
    end.

(** The Driver's loop as the spec words it, one case after the other:
    each step marks the case current, invokes its body on the display as
    the cases before it left it, and files the finished case behind the
    ones already run. *)
Definition Driver_step (ran : list TestCase * string) (r : Registered)
  : list TestCase * string :=
  let s := run_body (body r)
             {| current_case := case r; display := snd ran |} in
  ((fst ran ++ [current_case s])%list, display s).

Definition run_in_order (cs : list Registered) (cout : string)
  : list TestCase * string :=
  fold_left Driver_step cs ([], cout).

(** Zebra is declared before Apple; the one check of each body fails and
    names its case. *)
Definition zebra_apple : list Registered :=
  [ mkRegistered (new_TestCase_default "Zebra")
      [SCheckEqual 1 2 "zebra" "2" "z.cpp" 3];
    mkRegistered (new_TestCase_default "Apple")
      [SCheckEqual 1 2 "apple" "2" "a.cpp" 4] ].

(** The counters of the executing case. *)
Abbreviation checked s := (nChecked_m (current_case s)).
Abbreviation passed s := (nPassed_m (current_case s)).

(** * Properties *)

(** ** The order of [std::string] *)

Lemma ascii_compare_refl (c : ascii) : Ascii.compare c c = Eq.
Proof. unfold Ascii.compare. apply N.compare_refl. Qed.

Lemma ascii_compare_Eq (c1 c2 : ascii) :
  Ascii.compare c1 c2 = Eq <-> c1 = c2.
Proof.
  split.
  - apply Ascii.compare_eq_iff.
  - intros ->. apply ascii_compare_refl.
Qed.

Lemma ascii_compare_Lt (c1 c2 : ascii) :
  Ascii.compare c1 c2 = Lt <-> (N_of_ascii c1 < N_of_ascii c2)%N.
Proof. unfold Ascii.compare. apply N.compare_lt_iff. Qed.

Lemma string_compare_refl (s : string) : String.compare s s = Eq.
Proof.
  induction s as [|c s IH]; simpl.
  - reflexivity.
  - now rewrite ascii_compare_refl.
Qed.

Lemma string_compare_Eq (s1 s2 : string) :
  String.compare s1 s2 = Eq <-> s1 = s2.
Proof.
  split.
  - apply String.compare_eq_iff.
  - intros ->. apply string_compare_refl.
Qed.

Lemma string_compare_Gt (s1 s2 : string) :
  String.compare s1 s2 = Gt <-> String.compare s2 s1 = Lt.
Proof.
  rewrite (String.compare_antisym s1 s2).
  destruct (String.compare s2 s1); simpl; split; congruence.
Qed.

Lemma string_compare_lex (s1 s2 : string) :
  String.compare s1 s2 = Lt <-> lex_lt s1 s2.
Proof.
  split.
  - revert s2. induction s1 as [|c1 s1 IH]; intros [|c2 s2]; simpl;
      try discriminate.
    + intros _. constructor.
    + destruct (Ascii.compare c1 c2) eqn:Hc; try discriminate.
      * apply ascii_compare_Eq in Hc. subst c2.
        intros H. apply lex_tail, IH, H.
      * intros _. apply lex_head. now apply ascii_compare_Lt.
  - induction 1 as [c s | c1 c2 s1 s2 Hlt | c s1 s2 _ IH]; simpl.
    + reflexivity.
    + apply ascii_compare_Lt in Hlt. now rewrite Hlt.
    + now rewrite ascii_compare_refl.
Qed.

Lemma string_compare_trans (s1 s2 s3 : string) :
  String.compare s1 s2 = Lt -> String.compare s2 s3 = Lt ->
  String.compare s1 s3 = Lt.
Proof.
  revert s2 s3.
  induction s1 as [|c1 s1 IH]; intros [|c2 s2] [|c3 s3]; simpl;
    try discriminate; try reflexivity.
  destruct (Ascii.compare c1 c2) eqn:H12; try discriminate;
    destruct (Ascii.compare c2 c3) eqn:H23; try discriminate; intros Ha Hb.
  - apply ascii_compare_Eq in H12, H23. subst c2 c3.
    rewrite ascii_compare_refl. eapply IH; eassumption.
  - apply ascii_compare_Eq in H12. subst c2. now rewrite H23.
  - apply ascii_compare_Eq in H23. subst c3. now rewrite H12.
  - apply ascii_compare_Lt in H12, H23.
    assert (H13 : Ascii.compare c1 c3 = Lt)
      by (apply ascii_compare_Lt; eapply N.lt_trans; eassumption).
    now rewrite H13.
Qed.

Lemma name_le_refl (s : string) : name_le s s.
Proof. unfold name_le. now rewrite string_compare_refl. Qed.

Lemma name_le_trans (s1 s2 s3 : string) :
  name_le s1 s2 -> name_le s2 s3 -> name_le s1 s3.
Proof.
  unfold name_le. intros H12 H23 H13.
  apply string_compare_Gt in H13.
  destruct (String.compare s1 s2) eqn:E12; [| |congruence].
  - apply string_compare_Eq in E12. subst s2.
    apply H23. now apply string_compare_Gt.
  - destruct (String.compare s2 s3) eqn:E23; [| |congruence].
    + apply string_compare_Eq in E23. subst s3.
      rewrite (String.compare_antisym s1 s2), H13 in E12. discriminate.
    + pose proof (string_compare_trans _ _ _ E12 E23) as E13.
      rewrite (String.compare_antisym s1 s3), H13 in E13. discriminate.
Qed.

Lemma name_le_antisym (s1 s2 : string) :
  name_le s1 s2 -> name_le s2 s1 -> s1 = s2.
Proof.
  unfold name_le. intros H12 H21.
  destruct (String.compare s1 s2) eqn:E; [| |congruence].
  - now apply string_compare_Eq.
  - exfalso. apply H21. now apply string_compare_Gt.
Qed.

(** ** Ordering and equality of test cases *)

(** C9. [operator ==] and [operator <=>] of [TestCase] look at the name
    only: two cases are equal exactly when their names are, strict-less is
    the lexicographic order of the names, it is irreflexive, asymmetric,
    transitive and total, equality is reflexive, and replacing weights and
    counters changes no comparison. *)
Theorem TestCase_compares_by_name (a b : TestCase) :
  (op_eq a b = true <-> name_m a = name_m b)
  /\ (op_lt a b = true <-> lex_lt (name_m a) (name_m b))
  /\ op_lt a a = false
  /\ op_eq a a = true
  /\ (op_lt a b = true -> op_lt b a = false)
  /\ (forall c, op_lt a b = true -> op_lt b c = true -> op_lt a c = true)
  /\ (op_lt a b = true \/ op_eq a b = true \/ op_lt b a = true)
  /\ (forall nC nP w nC' nP' w',
        let a' := mkTestCase (name_m a) nC nP w in
        let b' := mkTestCase (name_m b) nC' nP' w' in
        spaceship a' b' = spaceship a b /\ op_eq a' b' = op_eq a b).
Proof.
  assert (Hlt : forall x y, op_lt x y = true <->
                            String.compare (name_m x) (name_m y) = Lt).
  { intros x y. unfold op_lt, spaceship.
    destruct (String.compare (name_m x) (name_m y)); split; congruence. }
  repeat split.
  - apply String.eqb_eq.
  - apply String.eqb_eq.
  - intros H. apply string_compare_lex. now apply Hlt.
  - intros H. apply Hlt. now apply string_compare_lex.
  - unfold op_lt, spaceship. now rewrite string_compare_refl.
  - apply String.eqb_refl.
  - intros H. apply Hlt in H. unfold op_lt, spaceship.
    rewrite String.compare_antisym, H. reflexivity.
  - intros c H1 H2. apply Hlt. apply Hlt in H1, H2.
    eapply string_compare_trans; eassumption.
  - destruct (String.compare (name_m a) (name_m b)) eqn:E.
    + right; left. apply String.eqb_eq. now apply string_compare_Eq.
    + left. now apply Hlt.
    + right; right. apply Hlt. now apply string_compare_Gt.
Qed.

(** ** What one macro invocation does to the executing case *)

(** Case analysis on the macro invoked and on the branch it takes. *)
Ltac by_macro st :=
  destruct st as [c t f l | c m f l | L R ? ? ? a b ta tb f l
                 | T ? ? a b m ta tb tm f l | E [e|] ex t f l | m f l]; simpl;
  unfold GATS_CHECK, check, GATS_CHECK_MESSAGE, check_message,
    GATS_CHECK_EQUAL, check_equal, GATS_CHECK_WITHIN, check_close_within,
    GATS_CHECK_THROW, GATS_FAIL; simpl;
  repeat match goal with |- context [if ?b then _ else _] => destruct b end.

Section MacroEffects.

Variable st : stmt.
Variable s : State.

Lemma exec_name :
  name_m (current_case (snd (exec st s))) = name_m (current_case s).
Proof.
  by_macro st; reflexivity.
Qed.

Lemma exec_checked :
  checked (snd (exec st s))
  = UIntMax.incr (checked s).
Proof.
  by_macro st; reflexivity.
Qed.

Lemma exec_passed :
  passed (snd (exec st s)) = passed s
  \/ passed (snd (exec st s))
     = UIntMax.incr (passed s).
Proof.
  by_macro st; simpl; auto.
Qed.

Lemma exec_flow : fst (exec st s) = if is_fail st then Returned else Next.
Proof. destruct st; reflexivity. Qed.

End MacroEffects.

(** ** Running bodies and sequences of invocations *)

Lemma invoke_all_cons (st : stmt) (ops : list stmt) (s : State) :
  invoke_all (st :: ops) s = invoke_all ops (snd (exec st s)).
Proof. reflexivity. Qed.

Lemma run_body_no_fail (body : list stmt) (s : State) :
  forallb (fun st => negb (is_fail st)) body = true ->
  run_body body s = invoke_all body s.
Proof.
  revert s. induction body as [|st body IH]; intros s H.
  - reflexivity.
  - cbn [forallb] in H. apply andb_true_iff in H as [Hst Hrest].
    rewrite invoke_all_cons, <- IH by assumption.
    cbn [run_body]. pose proof (exec_flow st s) as Hf.
    destruct (exec st s) as [fl s']. cbn [fst snd] in *. subst fl.
    now destruct (is_fail st).
Qed.

Lemma run_body_app (pre post : list stmt) (s : State) :
  forallb (fun st => negb (is_fail st)) pre = true ->
  run_body (pre ++ post) s = run_body post (run_body pre s).
Proof.
  revert s. induction pre as [|st pre IH]; intros s H; simpl in *.
  - reflexivity.
  - apply andb_true_iff in H as [Hst Hrest].
    pose proof (exec_flow st s) as Hf.
    destruct (exec st s) as [fl s']. simpl in *. subst fl.
    destruct (is_fail st); [discriminate|]. now apply IH.
Qed.

(** A body runs the invocations of one of its prefixes and no others. *)
Lemma run_body_prefix (body : list stmt) (s : State) :
  exists ran rest,
    body = (ran ++ rest)%list /\ run_body body s = invoke_all ran s.
Proof.
  revert s. induction body as [|st body IH]; intros s.
  - exists [], []. split; reflexivity.
  - simpl. pose proof (exec_flow st s) as Hf.
    destruct (exec st s) as [fl s'] eqn:E. simpl in Hf. subst fl.
    destruct (is_fail st).
    + exists [st], body. split; [reflexivity|].
      unfold invoke_all. simpl. now rewrite E.
    + destruct (IH s') as (ran & rest & -> & Hrun).
      exists (st :: ran), rest. split; [reflexivity|].
      rewrite invoke_all_cons, E. exact Hrun.
Qed.

Lemma invoke_all_name (ops : list stmt) (s : State) :
  name_m (current_case (invoke_all ops s)) = name_m (current_case s).
Proof.
  revert s. induction ops as [|st ops IH]; intros s.
  - reflexivity.
  - rewrite invoke_all_cons, IH. apply exec_name.
Qed.

Lemma run_body_name (body : list stmt) (s : State) :
  name_m (current_case (run_body body s)) = name_m (current_case s).
Proof.
  destruct (run_body_prefix body s) as (ran & rest & _ & ->).
  apply invoke_all_name.
Qed.

(** ** The Driver's sort *)

Lemma reg_lt_false_le (x y : Registered) : reg_lt x y = false -> reg_le y x.
Proof.
  unfold reg_lt, op_lt, spaceship, reg_le, reg_name, name_le. intros H Hgt.
  apply string_compare_Gt in Hgt. now rewrite Hgt in H.
Qed.

Lemma reg_lt_true_le (x y : Registered) : reg_lt x y = true -> reg_le x y.
Proof.
  unfold reg_lt, op_lt, spaceship, reg_le, reg_name, name_le. intros H Hgt.
  now rewrite Hgt in H.
Qed.

Lemma insert_case_perm (x : Registered) (cs : list Registered) :
  Permutation (x :: cs) (insert_case x cs).
Proof.
  induction cs as [|y cs IH]; simpl.
  - apply Permutation_refl.
  - destruct (reg_lt x y).
    + apply Permutation_refl.
    + eapply perm_trans; [apply perm_swap|]. now apply perm_skip.
Qed.

Lemma sort_cases_perm (cs : list Registered) :
  Permutation cs (sort_cases cs).
Proof.
  induction cs as [|x cs IH]; simpl.
  - apply perm_nil.
  - eapply perm_trans; [apply perm_skip, IH|]. apply insert_case_perm.
Qed.

Lemma insert_case_sorted (x : Registered) (cs : list Registered) :
  StronglySorted reg_le cs -> StronglySorted reg_le (insert_case x cs).
Proof.
  induction 1 as [|y cs Hs IH Hall]; simpl.
  - repeat constructor.
  - destruct (reg_lt x y) eqn:E.
    + constructor; [now constructor|].
      apply reg_lt_true_le in E. constructor; [exact E|].
      eapply Forall_impl; [|exact Hall].
      intros z Hz. eapply name_le_trans; eassumption.
    + constructor; [exact IH|].
      apply reg_lt_false_le in E.
      eapply Permutation_Forall; [apply insert_case_perm|].
      now constructor.
Qed.

Lemma sort_cases_sorted (cs : list Registered) :
  StronglySorted reg_le (sort_cases cs).
Proof.
  induction cs as [|x cs IH]; simpl.
  - constructor.
  - now apply insert_case_sorted.
Qed.

(** Two sorted sequences of names with the same elements are the same
    sequence: the order of names is antisymmetric. *)
Lemma sorted_names_unique (l1 l2 : list string) :
  StronglySorted name_le l1 -> StronglySorted name_le l2 ->
  Permutation l1 l2 -> l1 = l2.
Proof.
  intros H1. revert l2.
  induction H1 as [|a l1 Hs1 IH Hall1]; intros l2 H2 Hp.
  - apply Permutation_nil in Hp. now subst.
  - destruct H2 as [|b l2 Hs2 Hall2].
    + apply Permutation_sym, Permutation_nil in Hp. discriminate.
    + assert (Hab : a = b).
      { apply name_le_antisym.
        - assert (Hin : In b (a :: l1))
            by (eapply Permutation_in; [apply Permutation_sym, Hp|now left]).
          destruct Hin as [->|Hin]; [apply name_le_refl|].
          rewrite Forall_forall in Hall1. now apply Hall1.
        - assert (Hin : In a (b :: l2))
            by (eapply Permutation_in; [apply Hp|now left]).
          destruct Hin as [->|Hin]; [apply name_le_refl|].
          rewrite Forall_forall in Hall2. now apply Hall2. }
      subst b. f_equal. apply IH; [exact Hs2|].
      eapply Permutation_cons_inv, Hp.
Qed.

Lemma run_cases_names (cs : list Registered) (cout : string) :
  map name_m (fst (run_cases cs cout)) = map reg_name cs.
Proof.
  revert cout. induction cs as [|c cs IH]; intros cout; simpl.
  - reflexivity.
  - specialize (IH (display (run_body (body c)
                               {| current_case := case c; display := cout |}))).
    destruct (run_cases cs _) as [finished cout']. simpl in *.
    now rewrite run_body_name, IH.
Qed.

Lemma execution_order_sorted_names (registry : list Registered) :
  execution_order registry = map reg_name (sort_cases registry).
Proof. unfold execution_order, execute_cases. apply run_cases_names. Qed.

Lemma sorted_map_names (cs : list Registered) :
  StronglySorted reg_le cs -> StronglySorted name_le (map reg_name cs).
Proof.
  induction 1 as [|x cs Hs IH Hall]; simpl; constructor.
  - exact IH.
  - apply Forall_map. exact Hall.
Qed.

Lemma run_cases_in_order (cs : list Registered) (ran : list TestCase)
    (cout : string) :
  fold_left Driver_step cs (ran, cout)
  = ((ran ++ fst (run_cases cs cout))%list, snd (run_cases cs cout)).
Proof.
  revert ran cout. induction cs as [|c cs IH]; intros ran cout.
  - cbn [fold_left run_cases fst snd]. now rewrite app_nil_r.
  - cbn [fold_left run_cases]. unfold Driver_step at 2. cbn [fst snd].
    rewrite IH.
    destruct (run_cases cs _) as [finished cout'] eqn:E. cbn [fst snd].
    now rewrite <- app_assoc.
Qed.

(** C2. The Driver runs the registered cases in ascending lexicographic
    order of their names: the names in execution order are sorted, they are
    the registered names, and any other registration order of the same
    cases gives the same execution order. The bodies themselves run in that
    order, each once on its own case and on the display the cases before
    it left. A registry declaring Zebra before Apple runs Apple first:
    Apple's diagnostic is displayed before Zebra's. *)
Theorem Driver_runs_in_name_order (registry : list Registered) :
  StronglySorted name_le (execution_order registry)
  /\ Permutation (map reg_name registry) (execution_order registry)
  /\ (forall registry', Permutation registry registry' ->
        execution_order registry' = execution_order registry)
  /\ (forall zebra_body apple_body,
        execution_order
          [ mkRegistered (new_TestCase_default "Zebra") zebra_body;
            mkRegistered (new_TestCase_default "Apple") apple_body ]
        = ["Apple"; "Zebra"])
  /\ (forall cout,
        execute_cases registry cout
        = run_in_order (sort_cases registry) cout)
  /\ execute_cases zebra_apple EmptyString
     = ([mkTestCase "Apple" 1 0 1; mkTestCase "Zebra" 1 0 1],
        "a.cpp(4): " ++ dquote ++ "apple" ++ dquote ++ " [1] != "
          ++ dquote ++ "2" ++ dquote ++ " [2]" ++ newline
          ++ "z.cpp(3): " ++ dquote ++ "zebra" ++ dquote ++ " [1] != "
          ++ dquote ++ "2" ++ dquote ++ " [2]" ++ newline).
Proof.
  split; [|split; [|split; [|split; [|split]]]].
  - rewrite execution_order_sorted_names.
    apply sorted_map_names, sort_cases_sorted.
  - rewrite execution_order_sorted_names.
    apply Permutation_map, sort_cases_perm.
  - intros registry' Hp. rewrite !execution_order_sorted_names.
    apply sorted_names_unique;
      try (apply sorted_map_names, sort_cases_sorted).
    apply Permutation_map.
    eapply perm_trans; [apply Permutation_sym, sort_cases_perm|].
    eapply perm_trans; [apply Permutation_sym, Hp|].
    apply sort_cases_perm.
  - intros zebra_body apple_body.
    rewrite execution_order_sorted_names. reflexivity.
  - intros cout. unfold execute_cases, run_in_order.
    rewrite run_cases_in_order. cbn [app].
    now destruct (run_cases (sort_cases registry) cout).
  - vm_compute. reflexivity.
Qed.

(** ** Counters *)

Lemma incr_in_range (n : Z) : UIntMax.in_range (UIntMax.incr n).
Proof.
  unfold UIntMax.in_range, UIntMax.incr, UIntMax.modulus.
  apply Z.mod_pos_bound. lia.
Qed.

Lemma incr_below_max (n : Z) :
  0 <= n < UIntMax.max -> UIntMax.incr n = n + 1.
Proof.
  unfold UIntMax.incr, UIntMax.max, UIntMax.modulus. intros H.
  apply Z.mod_small. lia.
Qed.

(** Every invocation counts as one check, modulo [2^64]. *)
Lemma invoke_all_checked (ops : list stmt) (s : State) :
  UIntMax.in_range (checked s) ->
  checked (invoke_all ops s)
  = (checked s + Z.of_nat (List.length ops)) mod UIntMax.modulus.
Proof.
  revert s. induction ops as [|st ops IH]; intros s Hr.
  - cbn [List.length invoke_all fold_left]. rewrite Z.add_0_r.
    symmetry. apply Z.mod_small. exact Hr.
  - rewrite invoke_all_cons, IH, exec_checked
      by (rewrite exec_checked; apply incr_in_range).
    unfold UIntMax.incr. rewrite Zplus_mod_idemp_l. f_equal.
    rewrite length_cons. lia.
Qed.

Lemma invoke_all_keeps_passed (ops : list stmt) (s : State) :
  Forall keeps_passed ops ->
  passed (invoke_all ops s) = passed s.
Proof.
  intros H. revert s. induction H as [|st ops Hst _ IH]; intros s.
  - reflexivity.
  - rewrite invoke_all_cons, IH. apply Hst.
Qed.

(** Without overflow the counters grow and stay ordered. *)
Lemma invoke_all_ordered (ops : list stmt) (s : State) :
  0 <= passed s <= checked s ->
  checked s + Z.of_nat (List.length ops) < UIntMax.modulus ->
  checked (invoke_all ops s)
    = checked s + Z.of_nat (List.length ops)
  /\ passed s <= passed (invoke_all ops s)
  /\ passed (invoke_all ops s)
     <= checked (invoke_all ops s).
Proof.
  revert s. induction ops as [|st ops IH]; intros s Hinv Hroom.
  - cbn [List.length invoke_all fold_left] in *. lia.
  - rewrite length_cons in Hroom. rewrite invoke_all_cons.
    pose proof (exec_checked st s) as Hc.
    pose proof (exec_passed st s) as Hp.
    unfold UIntMax.modulus in Hroom.
    rewrite incr_below_max in Hc by (unfold UIntMax.max, UIntMax.modulus; lia).
    assert (Hp' : passed (snd (exec st s)) = passed s
                  \/ passed (snd (exec st s))
                     = passed s + 1).
    { destruct Hp as [Hp|Hp]; [now left|right].
      rewrite Hp. apply incr_below_max.
      unfold UIntMax.max, UIntMax.modulus. lia. }
    destruct (IH (snd (exec st s))) as (H1 & H2 & H3).
    + lia.
    + unfold UIntMax.modulus. lia.
    + rewrite length_cons. lia.
Qed.

Lemma forallb_cons {A : Type} (f : A -> bool) (x : A) (l : list A) :
  forallb f (x :: l) = f x && forallb f l.
Proof. reflexivity. Qed.

Lemma forallb_repeat {A : Type} (f : A -> bool) (x : A) (n : nat) :
  f x = true -> forallb f (repeat x n) = true.
Proof.
  intros H. induction n as [|n IH].
  - reflexivity.
  - change (f x && forallb f (repeat x n) = true). now rewrite H, IH.
Qed.

Lemma Forall_repeat {A : Type} (P : A -> Prop) (x : A) (n : nat) :
  P x -> Forall P (repeat x n).
Proof.
  intros H. apply Forall_forall. intros y Hy.
  apply repeat_spec in Hy. now subst.
Qed.

Lemma failing_check_keeps_passed : keeps_passed failing_check.
Proof. intros s. reflexivity. Qed.

Lemma many_checks : Z.of_nat many = UIntMax.max.
Proof.
  unfold many. apply Z2Nat.id. unfold UIntMax.max, UIntMax.modulus. lia.
Qed.

Lemma run_body_bound (ops : list stmt) (s : State) :
  exists ran,
    (List.length ran <= List.length ops)%nat
    /\ run_body ops s = invoke_all ran s.
Proof.
  destruct (run_body_prefix ops s) as (ran & rest & -> & Hrun).
  exists ran. split; [|exact Hrun]. rewrite length_app. lia.
Qed.

(** C5 (amended). As long as a case has room for the checks,
    [checked + number of invocations < 2^64], every sequence of check
    macros keeps [passed <= checked] and lets neither counter decrease,
    whether all invocations take effect or the body stops at a
    [GATS_FAIL]; and every invocation, passing or not, counts as a check. *)
Theorem counters_ordered_without_overflow (ops : list stmt) (s : State) :
  0 <= passed s <= checked s ->
  checked s + Z.of_nat (List.length ops) < UIntMax.modulus ->
  (forall st s0, checked (snd (exec st s0))
                 = UIntMax.incr (checked s0))
  /\ passed (invoke_all ops s)
     <= checked (invoke_all ops s)
  /\ checked s <= checked (invoke_all ops s)
  /\ passed s <= passed (invoke_all ops s)
  /\ passed (run_body ops s)
     <= checked (run_body ops s)
  /\ checked s <= checked (run_body ops s)
  /\ passed s <= passed (run_body ops s).
Proof.
  intros Hinv Hroom.
  split; [intros st s0; apply exec_checked|].
  destruct (invoke_all_ordered ops s Hinv Hroom) as (Hc & Hp & Hle).
  destruct (run_body_bound ops s) as (ran & Hlen & ->).
  destruct (invoke_all_ordered ran s Hinv) as (Hc' & Hp' & Hle'); lia.
Qed.

(** A body of three checks and a [GATS_FAIL], run on a fresh case. *)
Lemma counters_ordered_witness :
  let ops := [passing_check; failing_check;
              SFail "stop" "t.cpp" 12; passing_check] in
  passed (run_body ops (fresh "T"))
  <= checked (run_body ops (fresh "T")).
Proof.
  intros ops.
  apply (counters_ordered_without_overflow ops (fresh "T")).
  - simpl. lia.
  - vm_compute. reflexivity.
Defined.

(** C5 (as stated, refuted). On a fresh case, one passing check followed by
    [2^64 - 1] failing checks wraps the checked counter to [0] while
    passed stays [1]. *)
Lemma counters_disordered_after_overflow :
  passed (run_body overflowing_body (fresh "T")) = 1
  /\ checked (run_body overflowing_body (fresh "T")) = 0.
Proof.
  assert (Hnf : forallb (fun st => negb (is_fail st)) overflowing_body = true).
  { unfold overflowing_body.
    rewrite (forallb_cons (fun st => negb (is_fail st)) passing_check
               (repeat failing_check many)).
    rewrite (forallb_repeat (fun st => negb (is_fail st)) failing_check many
               eq_refl).
    reflexivity. }
  rewrite (run_body_no_fail overflowing_body (fresh "T") Hnf).
  unfold overflowing_body.
  rewrite invoke_all_cons. split.
  - rewrite invoke_all_keeps_passed
      by (apply Forall_repeat, failing_check_keeps_passed).
    reflexivity.
  - rewrite invoke_all_checked by (rewrite exec_checked; apply incr_in_range).
    rewrite repeat_length, many_checks. reflexivity.
Qed.

(** ** [GATS_FAIL] and the counters *)

Lemma run_body_fail (msg file : string) (line : Z) (post : list stmt)
    (s : State) :
  run_body (SFail msg file line :: post) s = GATS_FAIL msg file line s.
Proof. reflexivity. Qed.

Lemma GATS_FAIL_checked (msg file : string) (line : Z) (s : State) :
  checked (GATS_FAIL msg file line s)
  = UIntMax.incr (checked s).
Proof. reflexivity. Qed.

Lemma GATS_FAIL_passed (msg file : string) (line : Z) (s : State) :
  passed (GATS_FAIL msg file line s) = passed s.
Proof. reflexivity. Qed.

Lemma all_passed_member (before after : list TestCase) (c : TestCase) :
  nPassed_m c <> nChecked_m c ->
  all_passed (before ++ c :: after) = false.
Proof.
  intros Hne. unfold all_passed. rewrite forallb_app. cbn [forallb].
  apply Z.eqb_neq in Hne. rewrite Hne.
  now rewrite andb_false_l, andb_false_r.
Qed.

(** C10 (amended). [GATS_FAIL] always adds one, modulo [2^64], to the
    checked counter and leaves the passed counter alone. When the case has
    room for the checks made before the abort and for the abort itself, a
    body aborted by [GATS_FAIL] ends with [passed < checked], and a run
    that contains the case does not exit with status zero. *)
Theorem fail_leaves_case_failed (pre post : list stmt) (msg file : string)
    (line : Z) (s : State) :
  forallb (fun st => negb (is_fail st)) pre = true ->
  0 <= passed s <= checked s ->
  checked s + Z.of_nat (List.length pre) < UIntMax.max ->
  (forall s0,
      checked (GATS_FAIL msg file line s0)
      = UIntMax.incr (checked s0)
      /\ passed (GATS_FAIL msg file line s0)
         = passed s0)
  /\ passed (run_body (pre ++ SFail msg file line :: post) s)
     < checked (run_body (pre ++ SFail msg file line :: post) s)
  /\ (forall before after,
        exit_status
          (before
             ++ current_case (run_body (pre ++ SFail msg file line :: post) s)
             :: after) = 1).
Proof.
  intros Hnf Hinv Hroom.
  split; [intros s0; split; reflexivity|].
  assert (Hlt : passed (run_body (pre ++ SFail msg file line :: post) s)
                < checked (run_body (pre ++ SFail msg file line :: post) s)).
  { rewrite run_body_app, run_body_fail by exact Hnf.
    rewrite GATS_FAIL_checked, GATS_FAIL_passed, run_body_no_fail by exact Hnf.
    unfold UIntMax.max in Hroom.
    destruct (invoke_all_ordered pre s Hinv) as (Hc & Hp & Hle); [lia|].
    rewrite incr_below_max by (unfold UIntMax.max; lia). lia. }
  split; [exact Hlt|].
  intros before after. unfold exit_status.
  rewrite all_passed_member; [reflexivity|lia].
Qed.

(** Two checks and then [GATS_FAIL], on a fresh case. *)
Lemma fail_leaves_case_failed_witness :
  passed (run_body
            ([passing_check; failing_check]
               ++ SFail "stop" "t.cpp" 12 :: [passing_check])
            (fresh "T"))
  < checked (run_body
               ([passing_check; failing_check]
                  ++ SFail "stop" "t.cpp" 12 :: [passing_check])
               (fresh "T")).
Proof.
  apply (fail_leaves_case_failed [passing_check; failing_check]
           [passing_check] "stop" "t.cpp" 12 (fresh "T")).
  - reflexivity.
  - simpl. lia.
  - vm_compute. reflexivity.
Defined.

(** C10 (as stated, refuted). A fresh case that fails [2^64 - 1] checks and
    then aborts with [GATS_FAIL] ends with both counters at [0]: passed is
    not less than checked, and a run of that case alone exits with zero. *)
Lemma fail_after_overflow_looks_passed :
  passed (run_body overflowing_abort (fresh "T")) = 0
  /\ checked (run_body overflowing_abort (fresh "T")) = 0
  /\ exit_status [current_case (run_body overflowing_abort (fresh "T"))] = 0.
Proof.
  assert (Hnf : forallb (fun st => negb (is_fail st))
                  (repeat failing_check many) = true)
    by exact (forallb_repeat (fun st => negb (is_fail st)) failing_check many
                eq_refl).
  assert (Hp : passed (run_body overflowing_abort (fresh "T")) = 0).
  { unfold overflowing_abort.
    rewrite (run_body_app (repeat failing_check many)
               [SFail "giving up" "t.cpp" 12] (fresh "T") Hnf).
    rewrite run_body_fail, GATS_FAIL_passed.
    rewrite (run_body_no_fail (repeat failing_check many) (fresh "T") Hnf).
    rewrite invoke_all_keeps_passed
      by (apply Forall_repeat, failing_check_keeps_passed).
    reflexivity. }
  assert (Hc : checked (run_body overflowing_abort (fresh "T")) = 0).
  { unfold overflowing_abort.
    rewrite (run_body_app (repeat failing_check many)
               [SFail "giving up" "t.cpp" 12] (fresh "T") Hnf).
    rewrite run_body_fail, GATS_FAIL_checked.
    rewrite (run_body_no_fail (repeat failing_check many) (fresh "T") Hnf).
    rewrite invoke_all_checked by (vm_compute; split; congruence).
    rewrite repeat_length, many_checks. reflexivity. }
  split; [exact Hp|]. split; [exact Hc|].
  unfold exit_status, all_passed. cbn [forallb]. rewrite Hp, Hc. reflexivity.
Qed.

(** ** Text occurring in a diagnostic *)

Lemma prefix_app (s t : string) : String.prefix s (s ++ t) = true.
Proof.
  induction s as [|c s IH]; simpl.
  - now destruct t.
  - destruct (ascii_dec c c) as [_|Hne]; [exact IH|now elim Hne].
Qed.

Lemma is_infix_unfold (needle hay : string) :
  is_infix needle hay
  = if String.prefix needle hay then true
    else match hay with
         | EmptyString => false
         | String _ rest => is_infix needle rest
         end.
Proof. destruct hay; reflexivity. Qed.

Lemma is_infix_head (s t : string) : is_infix s (s ++ t) = true.
Proof. rewrite is_infix_unfold, prefix_app. reflexivity. Qed.

Lemma is_infix_skip (needle a b : string) :
  is_infix needle b = true -> is_infix needle (a ++ b) = true.
Proof.
  intros H. induction a as [|c a IH].
  - exact H.
  - change (is_infix needle (String c (a ++ b)) = true).
    rewrite is_infix_unfold, IH. now destruct (String.prefix _ _).
Qed.

Lemma is_infix_last (s : string) : is_infix s s = true.
Proof.
  rewrite is_infix_unfold.
  replace (String.prefix s s) with true; [reflexivity|].
  symmetry. induction s as [|c s IH]; simpl; [reflexivity|].
  destruct (ascii_dec c c) as [_|Hne]; [exact IH|now elim Hne].
Qed.

(** Finds a piece among the pieces a report is appended from. *)
Ltac find_piece :=
  solve [ apply is_infix_head
        | apply is_infix_last
        | apply is_infix_skip; find_piece ].

Lemma incr_moves (n : Z) : UIntMax.incr n <> n.
Proof.
  unfold UIntMax.incr, UIntMax.modulus. intros H.
  assert (Hb : 0 <= n < 2 ^ 64)
    by (rewrite <- H; apply Z.mod_pos_bound; lia).
  destruct (Z.eq_dec (n + 1) (2 ^ 64)) as [E|E].
  - rewrite E, Z.mod_same in H by lia. lia.
  - rewrite Z.mod_small in H by lia. lia.
Qed.

(** ** [check_equal] *)

(** C6. [check_equal] counts one check and compares with the operands'
    own [==]. Equal operands add one to passed and display nothing.
    Unequal operands leave passed alone and display, after the location
    tag, the two quoted operand texts each followed by its bracketed value
    with [!=] between them; the text contains both operand texts and both
    rendered values. [check_equal(5, 5)] passes silently and
    [check_equal(5, 6)] fails with its diagnostic. *)
Theorem check_equal_spec {L R : Type} `{EqOp L R} `{Show L} `{Show R}
    (lhs : L) (rhs : R) (lhsStr rhsStr file : string) (line : Z)
    (s : State) :
  let s' := check_equal lhs rhs lhsStr rhsStr file line s in
  let diag :=
    dquote ++ lhsStr ++ dquote ++ " [" ++ show lhs ++ "] != "
      ++ dquote ++ rhsStr ++ dquote ++ " [" ++ show rhs ++ "]" ++ newline in
  checked s' = UIntMax.incr (checked s)
  /\ (if eq_op lhs rhs
      then passed s' = UIntMax.incr (passed s)
           /\ display s' = display s
      else passed s' = passed s
           /\ display s'
              = display s ++ output_check_location EmptyString file line
                  ++ diag)
  /\ (is_infix lhsStr diag = true /\ is_infix rhsStr diag = true
      /\ is_infix (show lhs) diag = true /\ is_infix (show rhs) diag = true)
  /\ (check_equal 5 5 "x" "5" "t.cpp" 10 (fresh "T")
      = {| current_case := mkTestCase "T" 1 1 1; display := EmptyString |})
  /\ (check_equal 5 6 "x" "6" "t.cpp" 11 (fresh "T")
      = {| current_case := mkTestCase "T" 1 0 1;
           display := "t.cpp(11): " ++ dquote ++ "x" ++ dquote ++ " [5] != "
                        ++ dquote ++ "6" ++ dquote ++ " [6]" ++ newline |}).
Proof.
  intros s' diag. subst s' diag. unfold check_equal, equal_report.
  split; [|split; [|split; [|split]]].
  - destruct (eq_op lhs rhs); reflexivity.
  - destruct (eq_op lhs rhs); simpl; split; reflexivity.
  - repeat split; find_piece.
  - reflexivity.
  - reflexivity.
Qed.

(** ** [check_close_within] *)

Lemma check_close_within_checked {T : Type} `{Arith T} `{Show T}
    (lhs rhs minimum : T) (lhsStr rhsStr minimumStr file : string) (line : Z)
    (s : State) :
  checked (check_close_within lhs rhs minimum
                         lhsStr rhsStr minimumStr file line s)
  = UIntMax.incr (checked s).
Proof.
  unfold check_close_within.
  destruct (leq (abs (sub lhs rhs)) (abs minimum)); reflexivity.
Qed.

Lemma check_close_within_pass {T : Type} `{Arith T} `{Show T}
    (lhs rhs minimum : T) (lhsStr rhsStr minimumStr file : string) (line : Z)
    (s : State) :
  leq (abs (sub lhs rhs)) (abs minimum) = true ->
  check_close_within lhs rhs minimum lhsStr rhsStr minimumStr file line s
  = {| current_case := add_passed (add_check (current_case s));
       display := display s |}.
Proof. unfold check_close_within. now intros ->. Qed.

Lemma check_close_within_fail {T : Type} `{Arith T} `{Show T}
    (lhs rhs minimum : T) (lhsStr rhsStr minimumStr file : string) (line : Z)
    (s : State) :
  leq (abs (sub lhs rhs)) (abs minimum) = false ->
  check_close_within lhs rhs minimum lhsStr rhsStr minimumStr file line s
  = {| current_case := add_check (current_case s);
       display := display s ++ output_check_location EmptyString file line
                    ++ within_report lhs rhs minimum
                         lhsStr rhsStr minimumStr |}.
Proof. unfold check_close_within. now intros ->. Qed.

Lemma float_abs_opp (m : float) : PrimFloat.abs (- m) = PrimFloat.abs m.
Proof.
  apply Prim2SF_inj. rewrite !abs_spec, opp_spec.
  destruct (Prim2SF m); reflexivity.
Qed.

(** The warning that a decimal literal stands for the nearest binary64
    number is expected: the compiler of the source converts its literals
    in the same way. *)
Set Warnings "-inexact-float".

(** C4 (amended). [check_close_within] counts one check and passes, adding
    one to passed, exactly when [abs(lhs - rhs) <= abs(minimum)] holds as
    the operand type computes it, and leaves passed alone otherwise. On
    binary64 operands with the floating-point [abs], [minimum] and
    [-minimum] give the same result, [(5.0, 5.05, 0.1)] passes, also with
    [-0.1], and [(5.0, 5.2, 0.1)] fails. *)
Theorem check_close_within_spec {T : Type} `{Arith T} `{Show T}
    (lhs rhs minimum : T) (lhsStr rhsStr minimumStr file : string) (line : Z)
    (s : State) :
  let s' := check_close_within lhs rhs minimum
              lhsStr rhsStr minimumStr file line s in
  checked s' = UIntMax.incr (checked s)
  /\ (passed s' = UIntMax.incr (passed s)
      <-> leq (abs (sub lhs rhs)) (abs minimum) = true)
  /\ (passed s' = passed s
      <-> leq (abs (sub lhs rhs)) (abs minimum) = false)
  /\ (forall (Sd : Show float) (x y m : float) tx ty tm f l s0,
        check_close_within x y (- m)%float tx ty tm f l s0
        = check_close_within x y m tx ty tm f l s0)
  /\ (forall (Sd : Show float) t,
        passed (check_close_within 5%float 5.05%float 0.1%float
                  "a" "b" "0.1" "t.cpp" 3 (fresh t)) = 1)
  /\ (forall (Sd : Show float) t,
        passed (check_close_within 5%float 5.05%float (-0.1)%float
                  "a" "b" "-0.1" "t.cpp" 3 (fresh t)) = 1)
  /\ (forall (Sd : Show float) t,
        passed (check_close_within 5%float 5.2%float 0.1%float
                  "a" "b" "0.1" "t.cpp" 3 (fresh t)) = 0).
Proof.
  intros s'. subst s'.
  split; [apply check_close_within_checked|].
  split; [|split].
  - destruct (leq (abs (sub lhs rhs)) (abs minimum)) eqn:E.
    + rewrite check_close_within_pass by exact E.
      split; reflexivity.
    + rewrite check_close_within_fail by exact E. cbn [current_case].
      split; [|discriminate].
      intros Heq. symmetry in Heq. now apply incr_moves in Heq.
  - destruct (leq (abs (sub lhs rhs)) (abs minimum)) eqn:E.
    + rewrite check_close_within_pass by exact E. cbn [current_case].
      split; [|discriminate].
      intros Heq. now apply incr_moves in Heq.
    + rewrite check_close_within_fail by exact E.
      split; reflexivity.
  - split.
    + intros Sd x y m tx ty tm f l s0.
      unfold check_close_within, within_report.
      cbn [abs Arith_double]. now rewrite float_abs_opp.
    + repeat split; intros Sd t; vm_compute; reflexivity.
Qed.

(** C4 (as stated, refuted). The binary64 operands [1] and [-2^-60] differ
    by more than [1], yet their computed difference rounds to [1] and the
    check passes with a tolerance of [1]. *)
Lemma rounding_passes_beyond_tolerance :
  float_value 1%float = Some 1%Q
  /\ float_value (-0x1p-60)%float = Some (-1 # 1152921504606846976)%Q
  /\ Qle_bool (Qabs (1 - (-1 # 1152921504606846976))) (Qabs 1) = false
  /\ passed (check_close_within (H0 := show_double)
               1%float (-0x1p-60)%float 1%float
               "a" "b" "1.0" "t.cpp" 3 (fresh "T")) = 1.
Proof. repeat split; vm_compute; reflexivity. Qed.

(** C8 (amended). A failing [check_close_within] displays, after the
    location tag, [difference(<lhsStr>, <rhsStr>) > <minimumStr> ==> ]
    followed by [|<lhs> - <rhs>| > <abs minimum>]: the diagnostic contains
    the three source texts, the rendered values of both operands and the
    rendered absolute minimum. The difference itself is not rendered. *)
Theorem check_close_within_diagnostic {T : Type} `{Arith T} `{Show T}
    (lhs rhs minimum : T) (lhsStr rhsStr minimumStr file : string) (line : Z)
    (s : State) :
  leq (abs (sub lhs rhs)) (abs minimum) = false ->
  let s' := check_close_within lhs rhs minimum
              lhsStr rhsStr minimumStr file line s in
  let diag :=
    "difference(" ++ lhsStr ++ ", " ++ rhsStr ++ ") > " ++ minimumStr
      ++ " ==> " ++ tab ++ "|" ++ show lhs ++ " - " ++ show rhs ++ "| > "
      ++ show (abs minimum) ++ newline in
  display s' = display s ++ output_check_location EmptyString file line ++ diag
  /\ is_infix lhsStr diag = true
  /\ is_infix rhsStr diag = true
  /\ is_infix minimumStr diag = true
  /\ is_infix (show lhs) diag = true
  /\ is_infix (show rhs) diag = true
  /\ is_infix (show (abs minimum)) diag = true.
Proof.
  intros Hfail s' diag. subst s' diag.
  rewrite check_close_within_fail by exact Hfail.
  unfold within_report. cbn [display].
  split; [reflexivity|].
  repeat split; find_piece.
Qed.

(** Integers [5] and [8] are further apart than [1]. *)
Lemma check_close_within_diagnostic_witness :
  display (check_close_within 5 8 1 "a" "b" "m" "t.cpp" 7 (fresh "T"))
  = "t.cpp(7): difference(a, b) > m ==> " ++ tab ++ "|5 - 8| > 1" ++ newline.
Proof.
  assert (Hfail : leq (abs (sub 5 8)) (abs 1) = false) by reflexivity.
  destruct (check_close_within_diagnostic 5 8 1 "a" "b" "m" "t.cpp" 7
              (fresh "T") Hfail) as [Hdisplay _].
  rewrite Hdisplay. reflexivity.
Defined.

(** C8 (as stated, refuted). For the integers [5], [8] and minimum [1] the
    check fails, the absolute difference is [3], and the diagnostic
    [t.cpp(7): difference(a, b) > m ==> |5 - 8| > 1] does not contain it. *)
Lemma diagnostic_omits_difference :
  leq (abs (sub 5 8)) (abs 1) = false
  /\ show (abs (sub 5 8)) = "3"
  /\ is_infix (show (abs (sub 5 8)))
       (display (check_close_within 5 8 1 "a" "b" "m" "t.cpp" 7 (fresh "T")))
     = false.
Proof. split; [|split]; vm_compute; reflexivity. Qed.

(** ** [GATS_CHECK_THROW] *)

(** C3 (amended). [GATS_CHECK_THROW] counts one check. When the operation
    throws what the handler expects, passed grows by one and nothing is
    displayed. When it throws anything else, passed is left alone and the
    diagnostic [unknown exception "<expected>" not thrown] is displayed,
    alone. When it throws nothing, passed is left alone and the diagnostic
    [no exception thrown, expecting "<expected>"] is displayed. *)
Theorem GATS_CHECK_THROW_spec {E : Type} (operation : option E)
    (expectedException : E -> bool) (expectedStr file : string) (line : Z)
    (s : State) :
  let s' := GATS_CHECK_THROW operation expectedException
              expectedStr file line s in
  let tag := output_check_location EmptyString file line in
  checked s' = UIntMax.incr (checked s)
  /\ match operation with
     | Some e =>
         if expectedException e
         then passed s' = UIntMax.incr (passed s)
              /\ display s' = display s
         else passed s' = passed s
              /\ display s'
                 = display s ++ tag ++ "unknown exception " ++ dquote
                     ++ expectedStr ++ dquote ++ " not thrown" ++ newline
     | None =>
         passed s' = passed s
         /\ display s'
            = display s ++ tag ++ "no exception thrown, expecting " ++ dquote
                ++ expectedStr ++ dquote ++ newline
     end.
Proof.
  intros s' tag. subst s' tag.
  unfold GATS_CHECK_THROW, unknown_exception_report, no_exception_report.
  destruct operation as [e|].
  - destruct (expectedException e); cbn; repeat split; reflexivity.
  - cbn. repeat split; reflexivity.
Qed.

(** C3 (as stated, refuted). The operation throws [std::runtime_error]
    where [std::out_of_range] is expected: the check is counted, passed
    stays [0] and the mismatch is displayed. *)
Lemma wrong_exception_is_not_a_pass :
  GATS_CHECK_THROW (Some "std::runtime_error") (String.eqb "std::out_of_range")
    "std::out_of_range" "t.cpp" 20 (fresh "T")
  = {| current_case := mkTestCase "T" 1 0 1;
       display := "t.cpp(20): unknown exception " ++ dquote
                    ++ "std::out_of_range" ++ dquote ++ " not thrown"
                    ++ newline |}.
Proof. vm_compute. reflexivity. Qed.

(** ** [GATS_FAIL] and the rest of the body *)

(** C7. A body that reaches [GATS_FAIL] records the failure as one check
    that did not pass, displays the location tag and the message, and
    stops: its final state is the one [GATS_FAIL] leaves, whatever is coded
    after it, so no later macro touches a counter or the display. *)
Theorem GATS_FAIL_aborts_body (pre post : list stmt) (msg file : string)
    (line : Z) (s : State) :
  forallb (fun st => negb (is_fail st)) pre = true ->
  let before := run_body pre s in
  let after := run_body (pre ++ SFail msg file line :: post) s in
  after = GATS_FAIL msg file line before
  /\ checked after = UIntMax.incr (checked before)
  /\ passed after = passed before
  /\ display after
     = display before ++ output_check_location EmptyString file line
         ++ msg ++ newline
  /\ after = run_body (pre ++ [SFail msg file line]) s
  /\ (forall post', run_body (pre ++ SFail msg file line :: post') s = after).
Proof.
  intros Hnf before after.
  assert (Hstop : forall rest,
             run_body (pre ++ SFail msg file line :: rest) s
             = GATS_FAIL msg file line before).
  { intros rest. subst before.
    now rewrite run_body_app, run_body_fail by exact Hnf. }
  subst after. rewrite !Hstop.
  repeat split; try reflexivity.
  intros post'. apply Hstop.
Qed.

(** A passing check, [GATS_FAIL], then a check that is never reached. *)
Lemma GATS_FAIL_aborts_body_witness :
  run_body ([passing_check] ++ SFail "stop" "t.cpp" 12 :: [failing_check])
    (fresh "T")
  = {| current_case := mkTestCase "T" 2 1 1;
       display := "t.cpp(12): stop" ++ newline |}.
Proof.
  assert (Hnf : forallb (fun st => negb (is_fail st)) [passing_check] = true)
    by reflexivity.
  destruct (GATS_FAIL_aborts_body [passing_check] [failing_check]
              "stop" "t.cpp" 12 (fresh "T") Hnf) as [Hafter _].
  rewrite Hafter. reflexivity.
Defined.

(** ** The aggregate weighted score *)

Local Open Scope Q_scope.

Lemma Qsum_cons (x : Q) (l : list Q) : Qsum (x :: l) = x + Qsum l.
Proof. reflexivity. Qed.

Lemma score_sums_spec (finished : list TestCase) (num den : Q) :
  fst (score_sums finished num den) == num + weighted_part finished
  /\ snd (score_sums finished num den) == den + weight_total finished.
Proof.
  revert num den.
  induction finished as [|c finished IH]; intros num den.
  - unfold weighted_part, weight_total.
    cbn [score_sums fst snd filter map Qsum fold_right]. split; ring.
  - unfold weighted_part, weight_total in *.
    cbn [score_sums filter].
    change (has_checks c) with (0 <? nChecked_m c)%Z.
    destruct (0 <? nChecked_m c)%Z.
    + destruct (IH (num + weight_m c * (inject_Z (nPassed_m c)
                                        / inject_Z (nChecked_m c)))
                   (den + weight_m c)) as [Hn Hd].
      rewrite Hn, Hd. cbn [map]. rewrite !Qsum_cons. unfold pass_ratio.
      split; ring.
    + apply IH.
Qed.

Lemma score_sums_skip (pre post : list TestCase) (c : TestCase) (num den : Q) :
  nChecked_m c = 0%Z ->
  score_sums (pre ++ c :: post) num den = score_sums (pre ++ post) num den.
Proof.
  intros Hc. revert num den.
  induction pre as [|x pre IH]; intros num den; simpl.
  - now rewrite Hc.
  - destruct (0 <? nChecked_m x)%Z; apply IH.
Qed.

(** C1. The aggregate weighted score is the sum of
    [weight * passed / checked] over the cases that made a check, divided
    by the sum of the weights of those cases (when that sum is not zero);
    a case without checks changes neither sum. For weights 2 and 1 with
    3 of 4 and 2 of 2 checks passed it is [(2 * 0.75 + 1 * 1) / 3], five
    sixths. *)
Theorem weighted_score_formula (finished : list TestCase) :
  ~ weight_total finished == 0 ->
  weighted_score finished == weighted_part finished / weight_total finished
  /\ (forall pre post c,
        nChecked_m c = 0%Z ->
        score_sums (pre ++ c :: post) 0 0 = score_sums (pre ++ post) 0 0
        /\ weighted_score (pre ++ c :: post) = weighted_score (pre ++ post))
  /\ weighted_score [case_A; case_B] == (2 * (3 # 4) + 1 * 1) / 3
  /\ weighted_score [case_A; case_B] == 5 # 6.
Proof.
  intros _. split; [|split; [|split]].
  - unfold weighted_score.
    destruct (score_sums_spec finished 0 0) as [Hn Hd].
    destruct (score_sums finished 0 0) as [num den]. simpl in Hn, Hd.
    rewrite Hn, Hd. now rewrite !Qplus_0_l.
  - intros pre post c Hc. unfold weighted_score.
    now rewrite score_sums_skip.
  - vm_compute. reflexivity.
  - vm_compute. reflexivity.
Qed.

(** The formula at work on A, B and a case C without checks; the same
    counters arise from running the bodies of [sample_registry]. *)
Lemma weighted_score_example :
  fst (execute_cases sample_registry EmptyString) = [case_A; case_B; case_C]
  /\ weighted_score [case_A; case_B; case_C]
     == (2 * (3 # 4) + 1 * 1) / (2 + 1).
Proof.
  split; [vm_compute; reflexivity|].
  assert (Hden : ~ weight_total [case_A; case_B; case_C] == 0)
    by (vm_compute; discriminate).
  destruct (weighted_score_formula [case_A; case_B; case_C] Hden)
    as [Hscore _].
  rewrite Hscore. vm_compute. reflexivity.
Defined.

Local Close Scope Q_scope.

(** * Further properties of the header's code *)

(** ** Text appended to the display *)

Lemma append_assoc (a b c : string) : (a ++ b) ++ c = a ++ b ++ c.
Proof. induction a as [|x a IH]; simpl; [reflexivity|now rewrite IH]. Qed.

Lemma append_nil_r (a : string) : a ++ EmptyString = a.
Proof. induction a as [|x a IH]; simpl; [reflexivity|now rewrite IH]. Qed.

Lemma append_inv_head (a b c : string) : a ++ b = a ++ c -> b = c.
Proof.
  induction a as [|x a IH]; simpl; intros H; [exact H|].
  injection H as H. now apply IH.
Qed.

Lemma append_eq_nil (a b : string) :
  a ++ b = EmptyString -> a = EmptyString /\ b = EmptyString.
Proof. destruct a; simpl; [now split|discriminate]. Qed.

Lemma append_unchanged (a d : string) : a ++ d = a <-> d = EmptyString.
Proof.
  split.
  - intros H. apply (append_inv_head a). now rewrite append_nil_r.
  - intros ->. apply append_nil_r.
Qed.

(** A text that ends with a newline is not empty. *)
Ltac not_empty H :=
  repeat (apply append_eq_nil in H; destruct H as [_ H]);
  discriminate H.

(** ** What one header macro does, by whether it passes *)

Lemma exec_passes (st : stmt) (s : State) :
  passes st = true ->
  current_case (snd (exec st s)) = add_passed (add_check (current_case s))
  /\ display (snd (exec st s)) = display s.
Proof.
  destruct st as [c t f l | c m f l | L R ? ? ? a b ta tb f l
                 | T ? ? a b m ta tb tm f l | E [e|] ex t f l | m f l];
    cbn [passes]; intros Hp; try discriminate;
    cbn [exec snd]; unfold GATS_CHECK, check, GATS_CHECK_MESSAGE,
      check_message, GATS_CHECK_EQUAL, check_equal, GATS_CHECK_WITHIN,
      check_close_within, GATS_CHECK_THROW; rewrite Hp; split; reflexivity.
Qed.

Lemma exec_fails (st : stmt) (s : State) :
  from_header st = true -> passes st = false ->
  current_case (snd (exec st s)) = add_check (current_case s)
  /\ exists text,
       display (snd (exec st s))
       = display s
           ++ output_check_location EmptyString (stmt_file st) (stmt_line st)
           ++ text ++ newline.
Proof.
  destruct st as [c t f l | c m f l | L R ? ? ? a b ta tb f l
                 | T ? ? a b m ta tb tm f l | E [e|] ex t f l | m f l];
    cbn [from_header passes stmt_file stmt_line]; intros Hh Hp;
    try discriminate; cbn [exec snd];
    unfold GATS_CHECK_EQUAL, check_equal, GATS_CHECK_WITHIN,
      check_close_within, GATS_CHECK_THROW, GATS_FAIL;
    try rewrite Hp; split; try reflexivity; cbn.
  - exists (dquote ++ ta ++ dquote ++ " [" ++ show a ++ "] != "
              ++ dquote ++ tb ++ dquote ++ " [" ++ show b ++ "]").
    unfold equal_report. now rewrite !append_assoc.
  - exists ("difference(" ++ ta ++ ", " ++ tb ++ ") > " ++ tm
              ++ " ==> " ++ tab ++ "|" ++ show a ++ " - " ++ show b
              ++ "| > " ++ show (abs m)).
    unfold within_report. now rewrite !append_assoc.
  - exists ("unknown exception " ++ dquote ++ t ++ dquote ++ " not thrown").
    unfold unknown_exception_report. now rewrite !append_assoc.
  - exists ("no exception thrown, expecting " ++ dquote ++ t ++ dquote).
    unfold no_exception_report. now rewrite !append_assoc.
  - exists m. reflexivity.
Qed.

Lemma exec_by_passes (st : stmt) (s : State) :
  from_header st = true ->
  checked (snd (exec st s)) = UIntMax.incr (checked s)
  /\ passed (snd (exec st s))
     = (if passes st then UIntMax.incr (passed s) else passed s)
  /\ name_m (current_case (snd (exec st s))) = name_m (current_case s)
  /\ weight_m (current_case (snd (exec st s))) = weight_m (current_case s).
Proof.
  intros Hh. destruct (passes st) eqn:Hp.
  - destruct (exec_passes st s Hp) as [-> _]. repeat split.
  - destruct (exec_fails st s Hh Hp) as [-> _]. repeat split.
Qed.

Lemma passing_count_cons (st : stmt) (ops : list stmt) :
  passing_count (st :: ops)
  = (if passes st then 1 else 0) + passing_count ops.
Proof.
  unfold passing_count. cbn [filter].
  destruct (passes st); [rewrite length_cons|]; lia.
Qed.

Lemma passing_count_bounds (ops : list stmt) :
  0 <= passing_count ops <= Z.of_nat (List.length ops).
Proof.
  unfold passing_count. pose proof (filter_length_le passes ops). lia.
Qed.

(** ** Counters after a sequence of header macros *)

(** The counters and the identity of the case after a sequence of the
    header's macros. *)
Lemma invoke_all_header (ops : list stmt) (s : State) :
  forallb from_header ops = true ->
  UIntMax.in_range (checked s) ->
  UIntMax.in_range (passed s) ->
  checked (invoke_all ops s)
  = (checked s + Z.of_nat (List.length ops)) mod UIntMax.modulus
  /\ passed (invoke_all ops s)
     = (passed s + passing_count ops) mod UIntMax.modulus
  /\ name_m (current_case (invoke_all ops s)) = name_m (current_case s)
  /\ weight_m (current_case (invoke_all ops s)) = weight_m (current_case s).
Proof.
  revert s. induction ops as [|st ops IH]; intros s Hh Hc Hp.
  - unfold passing_count. cbn [invoke_all fold_left List.length filter].
    rewrite !Z.add_0_r, !Z.mod_small by assumption. repeat split.
  - cbn [forallb] in Hh. apply andb_true_iff in Hh as [Hst Hrest].
    destruct (exec_by_passes st s Hst) as (Ec & Ep & En & Ew).
    rewrite invoke_all_cons.
    destruct (IH (snd (exec st s)) Hrest) as (Ic & Ip & In' & Iw).
    + rewrite Ec. apply incr_in_range.
    + rewrite Ep. destruct (passes st); [apply incr_in_range|exact Hp].
    + rewrite Ic, Ip, In', Iw, Ec, Ep, En, Ew, passing_count_cons, length_cons.
      unfold UIntMax.incr. repeat split.
      * rewrite Zplus_mod_idemp_l. f_equal. lia.
      * destruct (passes st).
        -- rewrite Zplus_mod_idemp_l. f_equal. lia.
        -- f_equal.
Qed.

(** X1. After any sequence of the header's macros the checked counter has
    advanced by the number of invocations and the passed counter by the
    number of invocations that pass, both modulo [2^64]; both stay
    values of a [std::uintmax_t], and the name and the weight of the case
    are untouched. *)
Theorem header_macros_count (ops : list stmt) (s : State) :
  forallb from_header ops = true ->
  UIntMax.in_range (checked s) ->
  UIntMax.in_range (passed s) ->
  checked (invoke_all ops s)
  = (checked s + Z.of_nat (List.length ops)) mod UIntMax.modulus
  /\ passed (invoke_all ops s)
     = (passed s + passing_count ops) mod UIntMax.modulus
  /\ UIntMax.in_range (checked (invoke_all ops s))
  /\ UIntMax.in_range (passed (invoke_all ops s))
  /\ name_m (current_case (invoke_all ops s)) = name_m (current_case s)
  /\ weight_m (current_case (invoke_all ops s)) = weight_m (current_case s).
Proof.
  intros Hh Hc Hp.
  destruct (invoke_all_header ops s Hh Hc Hp) as (Ec & Ep & En & Ew).
  rewrite Ec, Ep. repeat split; try assumption;
    apply Z.mod_pos_bound; unfold UIntMax.modulus; lia.
Qed.

(** A passing check, a failing check and then [GATS_FAIL] on a fresh case:
    three checks, one passed. *)
Lemma header_macros_count_witness :
  checked (invoke_all [passing_check; failing_check; SFail "stop" "t.cpp" 12]
             (fresh "T")) = 3
  /\ passed (invoke_all [passing_check; failing_check; SFail "stop" "t.cpp" 12]
               (fresh "T")) = 1.
Proof.
  assert (Hh : forallb from_header
                 [passing_check; failing_check; SFail "stop" "t.cpp" 12] = true)
    by reflexivity.
  assert (Hc : UIntMax.in_range (checked (fresh "T")))
    by (vm_compute; split; congruence).
  assert (Hp : UIntMax.in_range (passed (fresh "T")))
    by (vm_compute; split; congruence).
  destruct (header_macros_count _ (fresh "T") Hh Hc Hp) as (Ec & Ep & _).
  rewrite Ec, Ep. split; reflexivity.
Defined.

Lemma filter_perm {A : Type} (f : A -> bool) (l l' : list A) :
  Permutation l l' -> Permutation (filter f l) (filter f l').
Proof.
  induction 1 as [|x l l' _ IH|x y l|l l' l'' _ IH1 _ IH2]; cbn [filter].
  - apply perm_nil.
  - destruct (f x); [now apply perm_skip|exact IH].
  - destruct (f x), (f y); try apply Permutation_refl. apply perm_swap.
  - eapply perm_trans; eassumption.
Qed.

Lemma forallb_perm {A : Type} (f : A -> bool) (l l' : list A) :
  Permutation l l' -> forallb f l = true -> forallb f l' = true.
Proof.
  intros Hperm H. apply forallb_forall. intros x Hx.
  rewrite forallb_forall in H. apply H.
  eapply Permutation_in; [apply Permutation_sym, Hperm|exact Hx].
Qed.

(** X2. The counters do not depend on the order of the checks: two test
    bodies made of the header's checks, without [GATS_FAIL], that are
    rearrangements of each other leave the same checked and passed
    counters. *)
Theorem counters_ignore_order (body body' : list stmt) (s : State) :
  Permutation body body' ->
  forallb from_header body = true ->
  forallb (fun st => negb (is_fail st)) body = true ->
  UIntMax.in_range (checked s) ->
  UIntMax.in_range (passed s) ->
  checked (run_body body' s) = checked (run_body body s)
  /\ passed (run_body body' s) = passed (run_body body s).
Proof.
  intros Hperm Hh Hnf Hc Hp.
  pose proof (forallb_perm _ _ _ Hperm Hh) as Hh'.
  pose proof (forallb_perm _ _ _ Hperm Hnf) as Hnf'.
  rewrite !run_body_no_fail by assumption.
  destruct (invoke_all_header body s Hh Hc Hp) as (-> & -> & _).
  destruct (invoke_all_header body' s Hh' Hc Hp) as (-> & -> & _).
  unfold passing_count.
  rewrite (Permutation_length Hperm).
  rewrite (Permutation_length (filter_perm passes _ _ Hperm)).
  split; reflexivity.
Qed.

(** A failing check before or after a passing one. *)
Lemma counters_ignore_order_witness :
  checked (run_body [failing_check; passing_check] (fresh "T"))
  = checked (run_body [passing_check; failing_check] (fresh "T"))
  /\ passed (run_body [failing_check; passing_check] (fresh "T"))
     = passed (run_body [passing_check; failing_check] (fresh "T")).
Proof.
  apply (counters_ignore_order [passing_check; failing_check]
           [failing_check; passing_check] (fresh "T")).
  - apply perm_swap.
  - reflexivity.
  - reflexivity.
  - vm_compute. split; congruence.
  - vm_compute. split; congruence.
Defined.

Lemma filter_all_iff {A : Type} (f : A -> bool) (l : list A) :
  List.length (filter f l) = List.length l <-> forallb f l = true.
Proof.
  induction l as [|x l IH]; cbn [filter forallb].
  - split; reflexivity.
  - pose proof (filter_length_le f l) as Hle. destruct (f x); cbn [andb].
    + rewrite !length_cons. rewrite <- IH. split; lia.
    + rewrite length_cons. split; [lia|discriminate].
Qed.

(** X3. While the checked counter does not wrap, the gap between checked
    and passed grows by exactly the number of invocations that do not
    pass; so a case that starts with equal counters ends with
    [passed = checked] exactly when every invocation passed. *)
Theorem failures_are_the_gap (ops : list stmt) (s : State) :
  forallb from_header ops = true ->
  0 <= passed s <= checked s ->
  checked s + Z.of_nat (List.length ops) < UIntMax.modulus ->
  checked (invoke_all ops s) - passed (invoke_all ops s)
  = (checked s - passed s) + (Z.of_nat (List.length ops) - passing_count ops)
  /\ (passed (invoke_all ops s) = checked (invoke_all ops s)
      <-> passed s = checked s /\ forallb passes ops = true).
Proof.
  intros Hh Hinv Hroom. unfold UIntMax.modulus in Hroom.
  pose proof (passing_count_bounds ops) as Hb.
  destruct (invoke_all_header ops s Hh) as (Ec & Ep & _);
    try (unfold UIntMax.in_range, UIntMax.modulus; lia).
  unfold UIntMax.modulus in Ec, Ep.
  rewrite Z.mod_small in Ec, Ep by lia.
  rewrite Ec, Ep. split; [lia|].
  rewrite <- filter_all_iff. unfold passing_count in *. lia.
Qed.

(** Two passing checks around a failing one: a gap of one. *)
Lemma failures_are_the_gap_witness :
  checked (invoke_all [passing_check; failing_check; passing_check]
             (fresh "T"))
  - passed (invoke_all [passing_check; failing_check; passing_check]
              (fresh "T"))
  = 1.
Proof.
  assert (Hh : forallb from_header
                 [passing_check; failing_check; passing_check] = true)
    by reflexivity.
  assert (Hinv : 0 <= passed (fresh "T") <= checked (fresh "T"))
    by (simpl; lia).
  assert (Hroom : checked (fresh "T")
                  + Z.of_nat (List.length
                                [passing_check; failing_check; passing_check])
                  < UIntMax.modulus)
    by (vm_compute; reflexivity).
  destruct (failures_are_the_gap _ (fresh "T") Hh Hinv Hroom) as [Hgap _].
  rewrite Hgap. reflexivity.
Defined.

(** ** The display after a body *)

Lemma run_body_display (body : list stmt) (s : State) :
  forallb from_header body = true ->
  exists d,
    display (run_body body s) = display s ++ d
    /\ (d = EmptyString <-> forallb passes body = true).
Proof.
  revert s. induction body as [|st body IH]; intros s Hh.
  - exists EmptyString. cbn [run_body forallb].
    split; [now rewrite append_nil_r|split; reflexivity].
  - cbn [forallb] in Hh. apply andb_true_iff in Hh as [Hst Hrest].
    cbn [run_body forallb]. pose proof (exec_flow st s) as Hf.
    destruct (passes st) eqn:Hp.
    + destruct (exec_passes st s Hp) as [_ Hd].
      assert (Hnf : is_fail st = false)
        by (destruct st; try reflexivity; discriminate).
      rewrite Hnf in Hf.
      destruct (exec st s) as [fl s1]. cbn [fst snd] in *. subst fl.
      destruct (IH s1 Hrest) as (d & Hdisp & Hiff).
      exists d. rewrite Hdisp, Hd. split; [reflexivity|exact Hiff].
    + destruct (exec_fails st s Hst Hp) as [_ [text Hd]].
      destruct (exec st s) as [fl s1]. cbn [fst snd] in *.
      assert (Hsome : exists d1, d1 <> EmptyString
                                 /\ display s1 = display s ++ d1).
      { eexists. split; [|exact Hd]. intros H. not_empty H. }
      destruct Hsome as (d1 & Hne & Hd1).
      destruct fl.
      * destruct (IH s1 Hrest) as (d & Hdisp & _).
        exists (d1 ++ d). rewrite Hdisp, Hd1, append_assoc.
        split; [reflexivity|]. cbn [andb]. split; [|discriminate].
        intros H. apply append_eq_nil in H as [H _]. now elim Hne.
      * exists d1. split; [exact Hd1|]. cbn [andb]. split; [|discriminate].
        intros H. now elim Hne.
Qed.

(** X4. A body made of the header's macros only ever appends to the
    display, and it leaves the display exactly as it found it if and only
    if every invocation in the body passes (in particular the body contains
    no [GATS_FAIL]). *)
Theorem display_unchanged_iff_all_pass (body : list stmt) (s : State) :
  forallb from_header body = true ->
  String.prefix (display s) (display (run_body body s)) = true
  /\ (display (run_body body s) = display s
      <-> forallb passes body = true).
Proof.
  intros Hh. destruct (run_body_display body s Hh) as (d & Hd & Hiff).
  rewrite Hd. split.
  - apply prefix_app.
  - rewrite append_unchanged. exact Hiff.
Qed.

(** A body of two passing checks displays nothing. *)
Lemma display_unchanged_witness :
  display (run_body [passing_check; passing_check] (fresh "T")) = EmptyString.
Proof.
  assert (Hh : forallb from_header [passing_check; passing_check] = true)
    by reflexivity.
  destruct (display_unchanged_iff_all_pass _ (fresh "T") Hh) as [_ Hiff].
  apply Hiff. reflexivity.
Defined.

(** ** The tolerance check as a relation on its operands *)

Lemma check_close_within_case {T : Type} `{Arith T} `{Show T}
    (lhs rhs minimum : T) (lhsStr rhsStr minimumStr file : string) (line : Z)
    (s : State) :
  current_case (check_close_within lhs rhs minimum
                  lhsStr rhsStr minimumStr file line s)
  = if leq (abs (sub lhs rhs)) (abs minimum)
    then add_passed (add_check (current_case s))
    else add_check (current_case s).
Proof.
  unfold check_close_within.
  destruct (leq (abs (sub lhs rhs)) (abs minimum)); reflexivity.
Qed.

(** Discharges range conditions on concrete [int] values. *)
Ltac int_range := unfold Int.in_range, Int.min, Int.max; lia.

Lemma wrap_in_range (n : Z) : Int.in_range n -> Int.wrap n = n.
Proof.
  unfold Int.in_range, Int.min, Int.max, Int.wrap. intros Hn.
  rewrite Z.mod_small by lia. lia.
Qed.


(** X5. On [int] operands whose differences do not overflow, the
    tolerance check does not care which operand is the tested value and
    which the expected one: swapping them leaves the case with the same
    counters. *)
Theorem check_close_within_symmetric (a b m : Z)
    (aStr bStr mStr file : string) (line : Z) (s : State) :
  Int.in_range a -> Int.in_range b ->
  Int.in_range (a - b) -> Int.in_range (b - a) ->
  current_case (check_close_within a b m aStr bStr mStr file line s)
  = current_case (check_close_within b a m bStr aStr mStr file line s).
Proof.
  intros _ _ Hab Hba. rewrite !check_close_within_case.
  cbn [leq abs sub Arith_int].
  rewrite (wrap_in_range (a - b)), (wrap_in_range (b - a)) by assumption.
  replace (Z.abs (b - a)) with (Z.abs (a - b)) by lia.
  reflexivity.
Qed.

(** [5] against [8] and [8] against [5], within [4]. *)
Lemma check_close_within_symmetric_witness :
  current_case (check_close_within 5 8 4 "a" "b" "m" "t.cpp" 7 (fresh "T"))
  = current_case (check_close_within 8 5 4 "b" "a" "m" "t.cpp" 7 (fresh "T")).
Proof.
  apply (check_close_within_symmetric 5 8 4 "a" "b" "m" "t.cpp" 7 (fresh "T"));
    int_range.
Defined.

(** X6. On [int] operands with tolerances other than [INT_MIN], widening
    the tolerance never turns a passing check into a failing one: if the
    check passes with [m] and [|m| <= |m'|], it passes with [m']. Equal
    operands pass under every such tolerance. *)
Theorem check_close_within_monotone (a b m m' : Z)
    (aStr bStr mStr mStr' file : string) (line : Z) (s : State) :
  Int.in_range a -> Int.in_range b ->
  Int.min < m <= Int.max -> Int.min < m' <= Int.max ->
  (Z.abs m <= Z.abs m' ->
   passed (check_close_within a b m aStr bStr mStr file line s)
   = UIntMax.incr (passed s) ->
   passed (check_close_within a b m' aStr bStr mStr' file line s)
   = UIntMax.incr (passed s))
  /\ passed (check_close_within a a m aStr aStr mStr file line s)
     = UIntMax.incr (passed s).
Proof.
  unfold Int.min, Int.max. intros _ _ Hm Hm'.
  assert (Habs : forall t, - 2 ^ 31 < t <= 2 ^ 31 - 1 ->
                           abs t = Z.abs t).
  { intros t Ht. cbn [abs Arith_int]. apply wrap_in_range.
    unfold Int.in_range, Int.min, Int.max. lia. }
  split.
  - intros Hwider. rewrite !check_close_within_case.
    rewrite (Habs m Hm), (Habs m' Hm'). cbn [leq Arith_int].
    destruct (abs (sub a b) <=? Z.abs m) eqn:E.
    + intros _. apply Z.leb_le in E.
      assert (E' : (abs (sub a b) <=? Z.abs m') = true)
        by (apply Z.leb_le; lia).
      rewrite E'. reflexivity.
    + cbn [add_check nPassed_m]. intros Heq. symmetry in Heq.
      now apply incr_moves in Heq.
  - rewrite check_close_within_case, (Habs m Hm).
    cbn [leq abs sub Arith_int]. rewrite Z.sub_diag.
    change (Int.wrap (Z.abs (Int.wrap 0))) with 0.
    assert (E : (0 <=? Z.abs m) = true) by (apply Z.leb_le; lia).
    rewrite E. reflexivity.
Qed.

(** [5] against [8] passes within [-3], hence within [4]; [5] against [5]
    passes within [-3]. *)
Lemma check_close_within_monotone_witness :
  passed (check_close_within 5 8 4 "a" "b" "4" "t.cpp" 7 (fresh "T")) = 1
  /\ passed (check_close_within 5 5 (-3) "a" "a" "-3" "t.cpp" 7 (fresh "T"))
     = 1.
Proof.
  destruct (check_close_within_monotone 5 8 (-3) 4 "a" "b" "-3" "4"
              "t.cpp" 7 (fresh "T")) as [Hwider Hsame];
    try int_range.
  split.
  - apply Hwider; [vm_compute; discriminate|reflexivity].
  - exact Hsame.
Defined.



(** ** The two comparison operators together *)

(** X8. [operator ==] and [operator <=>], written separately, agree:
    two cases are [==] exactly when [<=>] says equal, so at most one of
    [<], [==], [>] holds; [>] is [<] with the operands swapped; and [<=],
    which is [<] or [==], is total and antisymmetric up to [==]. *)
Theorem eq_agrees_with_spaceship (a b : TestCase) :
  (op_eq a b = true <-> spaceship a b = Eq)
  /\ (op_lt a b = true -> op_eq a b = false /\ op_gt a b = false)
  /\ op_gt a b = op_lt b a
  /\ op_eq a b = op_eq b a
  /\ (op_le a b = true <-> op_lt a b = true \/ op_eq a b = true)
  /\ (op_le a b = true \/ op_le b a = true)
  /\ (op_le a b = true -> op_le b a = true -> op_eq a b = true).
Proof.
  assert (Heq : op_eq a b = true <-> spaceship a b = Eq).
  { unfold op_eq, spaceship. rewrite String.eqb_eq.
    symmetry. apply string_compare_Eq. }
  assert (Hval : op_eq a b
                 = match spaceship a b with Eq => true | _ => false end).
  { destruct (spaceship a b).
    - now apply Heq.
    - destruct (op_eq a b); [|reflexivity].
      destruct Heq as [Habs _]. now specialize (Habs eq_refl).
    - destruct (op_eq a b); [|reflexivity].
      destruct Heq as [Habs _]. now specialize (Habs eq_refl). }
  assert (Hsym : op_eq b a = op_eq a b)
    by (unfold op_eq; apply String.eqb_sym).
  assert (Hswap : spaceship b a = CompOpp (spaceship a b))
    by apply String.compare_antisym.
  split; [exact Heq|].
  rewrite Hsym, Hval. unfold op_lt, op_gt, op_le. rewrite Hswap.
  destruct (spaceship a b); cbn [CompOpp];
    intuition (try discriminate; auto).
Qed.

(** ** [GATS_CHECK_THROW] and the handler *)

Lemma check_throw_case {E : Type} (operation : option E)
    (expectedException : E -> bool) (expectedStr file : string) (line : Z)
    (s : State) :
  passed (GATS_CHECK_THROW operation expectedException
            expectedStr file line s)
  = UIntMax.incr (passed s)
  <-> exists e, operation = Some e /\ expectedException e = true.
Proof.
  unfold GATS_CHECK_THROW. destruct operation as [e|]; cbn.
  - destruct (expectedException e) eqn:Hx; cbn.
    + split; [intros _; now exists e|reflexivity].
    + split.
      * intros Heq. symmetry in Heq. now apply incr_moves in Heq.
      * intros (e' & [= <-] & Hx'). congruence.
  - split.
    + intros Heq. symmetry in Heq. now apply incr_moves in Heq.
    + intros (e' & Habs & _). discriminate.
Qed.

(** X9. [GATS_CHECK_THROW] passes exactly when the operation throws and the
    handler matches what it threw. Hence a handler that matches more, such
    as one for a base class, passes whenever the narrower one does, and an
    operation that throws nothing passes under no handler. *)
Theorem check_throw_wider_handler {E : Type} (operation : option E)
    (narrow wide : E -> bool) (narrowStr wideStr file : string) (line : Z)
    (s : State) :
  (forall e, narrow e = true -> wide e = true) ->
  passed (GATS_CHECK_THROW operation narrow narrowStr file line s)
  = UIntMax.incr (passed s) ->
  passed (GATS_CHECK_THROW operation wide wideStr file line s)
  = UIntMax.incr (passed s)
  /\ (exists e, operation = Some e /\ narrow e = true)
  /\ passed (GATS_CHECK_THROW (@None E) wide wideStr file line s) = passed s.
Proof.
  intros Hsub Hpass. apply check_throw_case in Hpass as (e & He & Hn).
  split; [|split].
  - apply check_throw_case. exists e. split; [exact He|now apply Hsub].
  - now exists e.
  - reflexivity.
Qed.

(** [std::out_of_range] is thrown; a handler for it passes, and so does one
    that also takes [std::logic_error]. *)
Lemma check_throw_wider_handler_witness :
  passed (GATS_CHECK_THROW (Some "std::out_of_range")
            (fun e => String.eqb "std::out_of_range" e
                      || String.eqb "std::logic_error" e)
            "std::logic_error" "t.cpp" 21 (fresh "T")) = 1.
Proof.
  apply (check_throw_wider_handler (Some "std::out_of_range")
           (String.eqb "std::out_of_range")
           (fun e => String.eqb "std::out_of_range" e
                     || String.eqb "std::logic_error" e)
           "std::out_of_range" "std::logic_error" "t.cpp" 21 (fresh "T")).
  - intros e He. now rewrite He.
  - reflexivity.
Defined.
